(** * MedGuard: a shallow embedding of the analytical core

    The development follows the Python sources of the repository:

    - [process_data_script.py]  (feature transforms, risk index, MPA coverage),
    - [newer files/data_processing.py]  (multifactor risk index, MPA proximity),
    - [train_models_script.py]  (the two estimators and the MPA simulator).

    Numbers.  The Python code computes with IEEE doubles.  Finite numbers are
    modelled exactly: by rationals [Q] where the code only uses field
    operations and comparisons, and by the reals [R] where it calls [exp],
    [sqrt] or [arctan2].  Rounding, overflow and signed zeros are outside the
    model.  The exceptional results of a floating-point division (NaN and the
    two infinities) are kept, since several properties are about them. *)

From Stdlib Require Import String.
From Stdlib Require Import Reals Lra Lia Psatz List ZArith Bool.
From Stdlib Require Import QArith Qminmax Qabs.
Import ListNotations.

(* ================================================================== *)
(** * Part I: definitions                                              *)
(* ================================================================== *)

(** ** Scenario simulator ([MPASimulator], train_models_script.py) *)

Module Simulator.
Local Open Scope R_scope.

(** The constants of [simulate_expansion]. *)
Definition base_recovery_rate : R := 0.07.
Definition K : R := 1.5.
Definition initial_stock : R := 0.6.
Definition spillover_multiplier : R := 0.3.

(** [np.arange(0, years + 1)]: empty when [years + 1 <= 0]. *)
Definition years_array (years : Z) : list R :=
  map INR (seq 0 (Z.to_nat (years + 1))).

(** [r = base_recovery_rate * (expansion_pct / 10)]. *)
Definition rate (expansion_pct : R) : R :=
  base_recovery_rate * (expansion_pct / 10).

(** One entry of [K / (1 + ((K - initial_stock) / initial_stock)
    * np.exp(-r * years_array))]. *)
Definition stock_at (r t : R) : R :=
  K / (1 + ((K - initial_stock) / initial_stock) * exp (- r * t)).

(** One entry of the biodiversity curve, [np.exp(-r * 0.8 * years_array)]. *)
Definition biodiversity_at (r t : R) : R :=
  K / (1 + ((K - initial_stock) / initial_stock) * exp (- r * 0.8 * t)).

Record scenario : Type := {
  expansion_percentage : R;
  new_coverage : R;
  years : list R;
  stock_recovery : list R;
  biodiversity_recovery : list R;
  economic_benefit_usd : list R;
  final_stock_level : R;
  final_biodiversity : R
}.

(** The simulator object: [baseline_coverage] is [None] until
    [load_baseline] ran; [scenarios] is the dictionary of stored runs, the
    latest binding of a key first. *)
Record MPASimulator : Type := {
  baseline_coverage : option R;
  scenarios : list (R * scenario)
}.

Definition init : MPASimulator :=
  {| baseline_coverage := None; scenarios := [] |}.

(** [a[-1]] on a Python list or array: an [IndexError] when it is empty. *)
Definition last_entry (a : list R) : option R :=
  match a with
  | [] => None
  | x :: a' => Some (last a' x)
  end.

(** [simulate_expansion(expansion_pct, years)].  [None] stands for the
    exception the Python code raises: a [TypeError] when the baseline is
    still [None], an [IndexError] at [stock_recovery[-1]] when the year range
    is empty.  On success the scenario is stored and returned. *)
Definition simulate_expansion (self : MPASimulator) (expansion_pct : R)
    (nyears : Z) : option (MPASimulator * scenario) :=
  match baseline_coverage self with
  | None => None
  | Some baseline =>
      let new_cov := baseline + expansion_pct in
      let ya := years_array nyears in
      let r := rate expansion_pct in
      let stock := map (stock_at r) ya in
      let biodiv := map (biodiversity_at r) ya in
      let econ :=
        map (fun s => s * spillover_multiplier * expansion_pct * 1e6) stock in
      match last_entry stock, last_entry biodiv with
      | Some fs, Some fb =>
          let sc := {| expansion_percentage := expansion_pct;
                       new_coverage := new_cov;
                       years := ya;
                       stock_recovery := stock;
                       biodiversity_recovery := biodiv;
                       economic_benefit_usd := econ;
                       final_stock_level := fs;
                       final_biodiversity := fb |} in
          Some ({| baseline_coverage := baseline_coverage self;
                   scenarios := (expansion_pct, sc) :: scenarios self |}, sc)
      | _, _ => None
      end
  end.

(** The [stock_recovery] array of the scenario a run returns. *)
Definition run_stock (self : MPASimulator) (expansion_pct : R) (nyears : Z)
    : option (list R) :=
  option_map (fun r => stock_recovery (snd r))
             (simulate_expansion self expansion_pct nyears).

(** The [final_stock_level] entry of the scenario a run returns. *)
Definition run_final_stock (self : MPASimulator) (expansion_pct : R)
    (nyears : Z) : option R :=
  option_map (fun r => final_stock_level (snd r))
             (simulate_expansion self expansion_pct nyears).

End Simulator.

(** ** MPA coverage ([calculate_mpa_coverage], process_data_script.py) *)

Module Coverage.
Local Open Scope Q_scope.

Record mpa_stats : Type := {
  total_mpa_area_km2 : Q;
  coverage_percentage : Q;
  number_of_mpas : nat
}.

(** Mediterranean total area (approximate), km². *)
Definition med_total_area : Q := 2.5e6.

(** [Series.sum()]: the entries added from the left, starting at zero. *)
Definition series_sum (xs : list Q) : Q := fold_left Qplus xs 0.

(** [calculate_mpa_coverage].  The input is [raw_data.get('mpa')] seen
    through [mpa.to_crs(epsg=3857).area]: the projected area of each MPA
    record in m².  [None] (no MPA data) makes the method return without
    storing statistics. *)
Definition calculate_mpa_coverage (mpa_areas_m2 : option (list Q))
    : option mpa_stats :=
  match mpa_areas_m2 with
  | None => None
  | Some areas =>
      let mpa_area := series_sum areas / 1e6 in
      let mpa_coverage_pct := (mpa_area / med_total_area) * 100 in
      Some {| total_mpa_area_km2 := mpa_area;
              coverage_percentage := mpa_coverage_pct;
              number_of_mpas := length areas |}
  end.

End Coverage.

(** ** MPA proximity flagging ([detect_illegal_fishing_patterns],
       newer files/data_processing.py) *)

Module Proximity.
Local Open Scope Q_scope.

Section Scan.

(** Points and geometries belong to shapely; [distance p g] stands for
    [p.distance(g.boundary)], with [None] when the call raises (the loop
    body catches every exception and continues). *)
Variable point : Type.
Variable geometry : Type.
Variable distance : point -> geometry -> option Q.

(** A row of the MPA table; the three attributes are those the code tries
    for the name. *)
Record mpa_row : Type := {
  attr_NAME : option String.string;
  attr_name : option String.string;
  attr_WDPAID : option String.string;
  mpa_geometry : geometry
}.

(** [mpa.get('NAME', mpa.get('name', mpa.get('WDPAID', 'Unknown')))]. *)
Definition mpa_label (m : mpa_row) : String.string :=
  match attr_NAME m with
  | Some s => s
  | None =>
      match attr_name m with
      | Some s => s
      | None =>
          match attr_WDPAID m with
          | Some s => s
          | None => "Unknown"%string
          end
      end
  end.

(** A DBSCAN cluster of high-effort cells: its label ([-1] is noise), its
    members' count and effort, and the centroid of its members. *)
Record cluster : Type := {
  cluster_id : Z;
  n_vessels : nat;
  total_effort_hours : Q;
  cluster_centroid : point
}.

Record suspect : Type := {
  s_cluster_id : Z;
  s_n_vessels : nat;
  s_total_effort_hours : Q;
  near_mpa : String.string;
  risk_score : Q
}.

(** Python's [min(1.0, x)]. *)
Definition py_min (a b : Q) : Q := if Qlt_le_dec b a then b else a.

(** The loop [for idx, mpa in mpa_gdf.iterrows()] for one cluster: the
    records it appends.  The first MPA closer than 0.05 yields one record
    and ends the loop ([break]); an exception skips the MPA. *)
Fixpoint scan_mpas (c : cluster) (mpas : list mpa_row) : list suspect :=
  match mpas with
  | [] => []
  | m :: rest =>
      match distance (cluster_centroid c) (mpa_geometry m) with
      | None => scan_mpas c rest
      | Some d =>
          if Qlt_le_dec d 0.05
          then [ {| s_cluster_id := cluster_id c;
                    s_n_vessels := n_vessels c;
                    s_total_effort_hours := total_effort_hours c;
                    near_mpa := mpa_label m;
                    risk_score := py_min 1.0 (1 - d * 20) |} ]
          else scan_mpas c rest
      end
  end.

(** The loop over the cluster labels: noise ([-1]) is skipped. *)
Definition suspicious_clusters (clusters : list cluster)
    (mpas : list mpa_row) : list suspect :=
  flat_map (fun c => if (cluster_id c =? -1)%Z then [] else scan_mpas c mpas)
           clusters.

End Scan.

Arguments attr_NAME {geometry}.
Arguments attr_name {geometry}.
Arguments attr_WDPAID {geometry}.
Arguments mpa_geometry {geometry}.
Arguments mpa_label {geometry}.
Arguments cluster_id {point}.
Arguments n_vessels {point}.
Arguments total_effort_hours {point}.
Arguments cluster_centroid {point}.
Arguments scan_mpas {point geometry}.
Arguments suspicious_clusters {point geometry}.

(** The distances that were computed without an exception, in row order. *)
Definition known_distances {point geometry : Type}
    (distance : point -> geometry -> option Q) (c : cluster point)
    (mpas : list (mpa_row geometry)) : list Q :=
  flat_map (fun m => match distance (cluster_centroid c) (mpa_geometry m) with
                     | Some d => [d]
                     | None => []
                     end) mpas.

(** The distance to the nearest qualifying MPA, as the specification words
    it: the least of the distances below 0.05, if there is one. *)
Fixpoint nearest_qualifying (ds : list Q) : option Q :=
  match ds with
  | [] => None
  | d :: rest =>
      match nearest_qualifying rest with
      | None => if Qlt_le_dec d 0.05 then Some d else None
      | Some e => if Qlt_le_dec d e then Some d else Some e
      end
  end.

(** The flagging rule as the specification words it: a record's risk score
    is [max(0, 1 - 20 d)] for the distance [d] to the nearest qualifying
    MPA. *)
Definition scored_by_nearest {point geometry : Type}
    (distance : point -> geometry -> option Q) (c : cluster point)
    (mpas : list (mpa_row geometry)) : Prop :=
  forall r : suspect,
    In r (scan_mpas distance c mpas) ->
    exists d : Q,
      nearest_qualifying (known_distances distance c mpas) = Some d /\
      risk_score r == Qmax 0 (1 - 20 * d).

End Proximity.

(** ** Inputs used to exercise the proximity scan *)

Module ProximityExamples.
Import Proximity.
Local Open Scope Q_scope.

(** Geometries are represented by their distance to the one centroid. *)
Definition ex_distance (p : unit) (g : Q) : option Q := Some g.

Definition ex_row (label : string) (d : Q) : mpa_row Q :=
  {| attr_NAME := Some label; attr_name := None; attr_WDPAID := None;
     mpa_geometry := d |}.

Definition ex_cluster : cluster unit :=
  {| cluster_id := 0; n_vessels := 6; total_effort_hours := 120;
     cluster_centroid := tt |}.

(** The first MPA is 0.04 away, the second, nearer one 0.01 away. *)
Definition ex_mpas : list (mpa_row Q) :=
  [ ex_row "Pelagos" 0.04; ex_row "Port-Cros" 0.01 ].

End ProximityExamples.

(** ** The two estimators ([OverfishingRiskModel],
       [JuvenileCatchForecastModel], train_models_script.py) *)

Module Models.

(** What a method can raise: the [ValueError] of the repository's own
    guard, with its message, or whatever pandas or scikit-learn raise. *)
Inductive error : Type :=
| ValueError (msg : string)
| LibraryError.

Inductive result (A : Type) : Type :=
| Ok (a : A)
| Raise (e : error).
Arguments Ok {A}.
Arguments Raise {A}.

(** The scikit-learn and pandas operations the classes call.  They are not
    code of the repository; an operation returns [None] when it raises. *)
Class Sklearn : Type := {
  matrix : Type;
  vector : Type;
  scaler_t : Type;
  forest_t : Type;
  StandardScaler : scaler_t;
  RandomForestClassifier : forest_t;
  RandomForestRegressor : forest_t;
  train_test_split :
    bool -> matrix -> vector -> option (matrix * matrix * vector * vector);
  fit_transform : scaler_t -> matrix -> option (scaler_t * matrix);
  transform : scaler_t -> matrix -> option matrix;
  fit : forest_t -> matrix -> vector -> option forest_t;
  score : forest_t -> matrix -> vector -> option Q;
  predict : forest_t -> matrix -> option vector;
  predict_proba_1 : forest_t -> matrix -> option vector;
  classification_report : vector -> vector -> option unit;
  mean_squared_error : vector -> vector -> option Q;
  feature_importances : forest_t -> option (list Q);
  date_range : nat -> option (list nat)
}.

Section Estimators.
Context {sk : Sklearn}.

(** The attributes both classes set in [__init__]. *)
Record estimator : Type := {
  model : forest_t;
  scaler : scaler_t;
  feature_names : list string;
  trained : bool
}.

Definition OverfishingRiskModel_init : estimator :=
  {| model := RandomForestClassifier; scaler := StandardScaler;
     feature_names := []; trained := false |}.

Definition JuvenileCatchForecastModel_init : estimator :=
  {| model := RandomForestRegressor; scaler := StandardScaler;
     feature_names := []; trained := false |}.

(** Methods run in a state-and-exception monad over [self]: the object as
    the call leaves it, and the value returned or the exception raised. *)
Definition method (A : Type) : Type := estimator -> estimator * result A.

Definition ret {A : Type} (a : A) : method A := fun self => (self, Ok a).

Definition raise {A : Type} (e : error) : method A :=
  fun self => (self, Raise e).

Definition bind {A B : Type} (m : method A) (k : A -> method B) : method B :=
  fun self =>
    match m self with
    | (self', Ok a) => k a self'
    | (self', Raise e) => (self', Raise e)
    end.

Definition get : method estimator := fun self => (self, Ok self).

Definition put (self' : estimator) : method unit :=
  fun _ => (self', Ok tt).

(** A library call: its exception propagates. *)
Definition lib {A : Type} (r : option A) : method A :=
  match r with
  | Some a => ret a
  | None => raise LibraryError
  end.

Notation "x <- m ;; k" := (bind m (fun x => k))
  (at level 61, m at next level, right associativity).
Notation "m ;;; k" := (bind m (fun _ => k))
  (at level 61, right associativity).

(** [self.scaler.fit_transform(X_train)]: the scaler is refitted in place. *)
Definition scaler_fit_transform (X : matrix) : method matrix :=
  self <- get ;;
  r <- lib (fit_transform (scaler self) X) ;;
  put {| model := model self; scaler := fst r;
         feature_names := feature_names self; trained := trained self |} ;;;
  ret (snd r).

(** [self.model.fit(X, y)]: the forest is refitted in place. *)
Definition model_fit (X : matrix) (y : vector) : method unit :=
  self <- get ;;
  f <- lib (fit (model self) X y) ;;
  put {| model := f; scaler := scaler self;
         feature_names := feature_names self; trained := trained self |}.

(** [pd.DataFrame({'feature': self.feature_names, 'importance': importances})]
    raises when the two columns differ in length. *)
Definition importance_table : method unit :=
  self <- get ;;
  imp <- lib (feature_importances (model self)) ;;
  if (length (feature_names self) =? length imp)%nat
  then ret tt
  else raise LibraryError.

(** [self.trained = True]. *)
Definition set_trained : method unit :=
  self <- get ;;
  put {| model := model self; scaler := scaler self;
         feature_names := feature_names self; trained := true |}.

(** The part the two [train] methods share, after the split. *)
Definition train_on (classifier : bool)
    (split : matrix * matrix * vector * vector) : method Q :=
  let '(X_train, X_test, y_train, y_test) := split in
  X_train_scaled <- scaler_fit_transform X_train ;;
  self <- get ;;
  X_test_scaled <- lib (transform (scaler self) X_test) ;;
  model_fit X_train_scaled y_train ;;;
  self <- get ;;
  train_score <- lib (score (model self) X_train_scaled y_train) ;;
  test_score <- lib (score (model self) X_test_scaled y_test) ;;
  y_pred <- lib (predict (model self) X_test_scaled) ;;
  (if classifier
   then lib (classification_report y_test y_pred)
   else (rmse <- lib (mean_squared_error y_test y_pred) ;; ret tt)) ;;;
  importance_table ;;;
  set_trained ;;;
  ret test_score.

(** [OverfishingRiskModel.train(X, y)]: a stratified split. *)
Definition OverfishingRiskModel_train (X : matrix) (y : vector) : method Q :=
  split <- lib (train_test_split true X y) ;;
  train_on true split.

(** [JuvenileCatchForecastModel.train(X, y)]. *)
Definition JuvenileCatchForecastModel_train (X : matrix) (y : vector)
    : method Q :=
  split <- lib (train_test_split false X y) ;;
  train_on false split.






(** Which class the object belongs to. *)
Inductive model_class : Type := OverfishingRisk | JuvenileCatch.

Definition init (k : model_class) : estimator :=
  match k with
  | OverfishingRisk => OverfishingRiskModel_init
  | JuvenileCatch => JuvenileCatchForecastModel_init
  end.

Definition train (k : model_class) (X : matrix) (y : vector) : method Q :=
  match k with
  | OverfishingRisk => OverfishingRiskModel_train X y
  | JuvenileCatch => JuvenileCatchForecastModel_train X y
  end.

(** Whether a call raised, and what. *)
Definition outcome {A : Type} (r : result A) : option error :=
  match r with
  | Ok _ => None
  | Raise e => Some e
  end.






(** A method that never touches the [trained] flag. *)
Definition keeps_flag {A : Type} (m : method A) : Prop :=
  forall self, trained (fst (m self)) = trained self.


End Estimators.

(** A small instance: matrices are lists of rows of rationals; the scaler
    remembers the number of columns it was fitted on and refuses others;
    the forest remembers that it was fitted. *)
Definition toy_width (X : list (list Q)) : nat :=
  match X with
  | [] => 0
  | row :: _ => length row
  end.

#[local] Instance toy_sklearn : Sklearn := {|
  matrix := list (list Q);
  vector := list Q;
  scaler_t := option nat;
  forest_t := option nat;
  StandardScaler := None;
  RandomForestClassifier := None;
  RandomForestRegressor := None;
  train_test_split := fun _ X y =>
    match X, y with
    | _ :: _ :: _, _ :: _ :: _ => Some (X, X, y, y)
    | _, _ => None
    end;
  fit_transform := fun _ X => Some (Some (toy_width X), X);
  transform := fun s X =>
    match s with
    | Some n => if (toy_width X =? n)%nat then Some X else None
    | None => None
    end;
  fit := fun _ X _ => Some (Some (toy_width X));
  score := fun f _ _ => match f with Some _ => Some 1%Q | None => None end;
  predict := fun f X =>
    match f with Some _ => Some (map (fun _ => 0%Q) X) | None => None end;
  predict_proba_1 := fun f X =>
    match f with Some _ => Some (map (fun _ => 0.5%Q) X) | None => None end;
  classification_report := fun _ _ => Some tt;
  mean_squared_error := fun _ _ => Some 0%Q;
  feature_importances := fun f =>
    match f with
    | Some n => Some (repeat (1 # Pos.of_nat n)%Q n)
    | None => None
    end;
  date_range := fun days => Some (seq 0 days)
|}.

Definition toy_X : list (list Q) := [[1; 2]; [3; 4]; [5; 6]]%Q.
Definition toy_y : list Q := [0; 1; 0]%Q.
Definition toy_names : list string := ["sst_anomaly"; "chl_mean"]%string.

End Models.

(** ** Current speed and direction ([calculate_current_speed],
       process_data_script.py) *)

Module Currents.
Local Open Scope R_scope.

(** [np.arctan2(y, x)]: the angle of the point [(x, y)] in radians, in
    [(-PI, PI]]. *)
Definition arctan2 (y x : R) : R :=
  if Rlt_dec 0 x then atan (y / x)
  else if Rlt_dec x 0 then
         if Rle_dec 0 y then atan (y / x) + PI else atan (y / x) - PI
  else if Rlt_dec 0 y then PI / 2
  else if Rlt_dec y 0 then - (PI / 2)
  else 0.

(** [a % m] on floats: the remainder of the floored division. *)
Definition py_mod (a m : R) : R := a - m * IZR (Int_part (a / m)).

(** One cell of [np.sqrt(u**2 + v**2)]. *)
Definition speed_at (u v : R) : R := sqrt (u ^ 2 + v ^ 2).

(** One cell of [np.arctan2(v, u) * 180 / np.pi], then
    [(direction + 360) % 360]. *)
Definition direction_at (u v : R) : R :=
  py_mod (arctan2 v u * 180 / PI + 360) 360.

(** [calculate_current_speed]: [None] when there is no current data; the
    two stored fields otherwise, [u] and [v] being fields on one grid. *)
Definition calculate_current_speed (currents : option (list R * list R))
    : option (list R * list R) :=
  match currents with
  | None => None
  | Some (u, v) =>
      let cells := combine u v in
      Some (map (fun c => speed_at (fst c) (snd c)) cells,
            map (fun c => direction_at (fst c) (snd c)) cells)
  end.

(** [theta] degrees is the angle of the vector [(u, v)] (east and north
    components) measured from east towards north: counterclockwise. *)
Definition counterclockwise_from_east (u v theta : R) : Prop :=
  u = sqrt (u ^ 2 + v ^ 2) * cos (theta * PI / 180) /\
  v = sqrt (u ^ 2 + v ^ 2) * sin (theta * PI / 180).

(** [theta] degrees is the angle of [(u, v)] measured from east towards
    south: clockwise. *)
Definition clockwise_from_east (u v theta : R) : Prop :=
  u = sqrt (u ^ 2 + v ^ 2) * cos (theta * PI / 180) /\
  v = - (sqrt (u ^ 2 + v ^ 2) * sin (theta * PI / 180)).

End Currents.

(** ** Floating-point values with their exceptional results *)

Module Floats.

(** A double: a finite number, an infinity or NaN. *)
Inductive xfloat (A : Type) : Type :=
| Fin (a : A)
| PInf
| NInf
| NaN.
Arguments Fin {A}.
Arguments PInf {A}.
Arguments NInf {A}.
Arguments NaN {A}.

Local Open Scope Q_scope.

Definition Qltb (x y : Q) : bool :=
  match x ?= y with
  | Lt => true
  | _ => false
  end.

(** The infinity of a given sign; a zero sign gives NaN. *)
Definition inf_of {A : Type} (c : comparison) : xfloat A :=
  match c with
  | Gt => PInf
  | Lt => NInf
  | Eq => NaN
  end.

Definition sign_of (a : xfloat Q) : comparison :=
  match a with
  | Fin x => x ?= 0
  | PInf => Gt
  | NInf => Lt
  | NaN => Eq
  end.

Definition sign_mul (c1 c2 : comparison) : comparison :=
  match c1, c2 with
  | Eq, _ | _, Eq => Eq
  | Lt, Lt | Gt, Gt => Gt
  | _, _ => Lt
  end.

Definition fneg (a : xfloat Q) : xfloat Q :=
  match a with
  | Fin x => Fin (- x)
  | PInf => NInf
  | NInf => PInf
  | NaN => NaN
  end.

Definition fabs (a : xfloat Q) : xfloat Q :=
  match a with
  | Fin x => Fin (Qabs x)
  | PInf | NInf => PInf
  | NaN => NaN
  end.

Definition fadd (a b : xfloat Q) : xfloat Q :=
  match a, b with
  | Fin x, Fin y => Fin (x + y)
  | NaN, _ | _, NaN => NaN
  | PInf, NInf | NInf, PInf => NaN
  | PInf, _ | _, PInf => PInf
  | NInf, _ | _, NInf => NInf
  end.

Definition fsub (a b : xfloat Q) : xfloat Q := fadd a (fneg b).

Definition fmul (a b : xfloat Q) : xfloat Q :=
  match a, b with
  | Fin x, Fin y => Fin (x * y)
  | NaN, _ | _, NaN => NaN
  | _, _ => inf_of (sign_mul (sign_of a) (sign_of b))
  end.

(** Division: [x / 0] is an infinity of the sign of [x], and [0 / 0] is
    NaN (numpy does not raise). *)
Definition fdiv (a b : xfloat Q) : xfloat Q :=
  match a, b with
  | Fin x, Fin y =>
      if Qeq_bool y 0 then inf_of (x ?= 0) else Fin (x / y)
  | NaN, _ | _, NaN => NaN
  | Fin _, _ => Fin 0
  | _, Fin y =>
      inf_of (sign_mul (sign_of a) (if Qeq_bool y 0 then Gt else y ?= 0))
  | _, _ => NaN
  end.

(** [a < b]; false as soon as a NaN is involved. *)
Definition flt (a b : xfloat Q) : bool :=
  match a, b with
  | Fin x, Fin y => Qltb x y
  | NaN, _ | _, NaN => false
  | NInf, NInf | PInf, _ | _, NInf => false
  | _, _ => true
  end.

Definition is_nan (a : xfloat Q) : bool :=
  match a with
  | NaN => true
  | _ => false
  end.

End Floats.

(** ** Risk composition ([calculate_overfishing_risk_index],
       process_data_script.py; [calculate_multifactor_risk_index],
       newer files/data_processing.py) *)

Module Risk.
Import Floats.
Local Open Scope Q_scope.

(** The cells of a gridded field, flattened. *)
Definition field : Type := list (xfloat Q).

(** A value in an arithmetic expression: a Python number or a field. *)
Inductive array : Type :=
| Scalar (x : xfloat Q)
| Grid (cells : field).

Fixpoint zip_with (f : xfloat Q -> xfloat Q -> xfloat Q) (a b : field)
    : field :=
  match a, b with
  | x :: a', y :: b' => f x y :: zip_with f a' b'
  | _, _ => []
  end.

(** A binary operator with broadcasting of scalars. *)
Definition arr_op (f : xfloat Q -> xfloat Q -> xfloat Q) (a b : array)
    : array :=
  match a, b with
  | Scalar x, Scalar y => Scalar (f x y)
  | Scalar x, Grid h => Grid (map (f x) h)
  | Grid g, Scalar y => Grid (map (fun c => f c y) g)
  | Grid g, Grid h => Grid (zip_with f g h)
  end.

Definition fmin2 (a b : xfloat Q) : xfloat Q := if flt b a then b else a.
Definition fmax2 (a b : xfloat Q) : xfloat Q := if flt a b then b else a.

(** [float(risk.min())] and [float(risk.max())]: NaN cells are skipped;
    NaN when no cell is left; [None] (a [ValueError]) on an empty array. *)
Definition reduce_skipna (op : xfloat Q -> xfloat Q -> xfloat Q)
    (cells : field) : option (xfloat Q) :=
  match cells with
  | [] => None
  | _ :: _ =>
      Some match filter (fun c => negb (is_nan c)) cells with
           | [] => NaN
           | x :: rest => fold_left op rest x
           end
  end.

Definition field_min : field -> option (xfloat Q) := reduce_skipna fmin2.
Definition field_max : field -> option (xfloat Q) := reduce_skipna fmax2.

(** The body of the normalization loop, the same in both composers:
    [(risk - risk_min) / (risk_max - risk_min)] if [risk_max > risk_min],
    [risk * 0] otherwise. *)
Definition minmax_normalize (risk : field) : option field :=
  match field_min risk, field_max risk with
  | Some risk_min, Some risk_max =>
      Some (if flt risk_min risk_max
            then map (fun x => fdiv (fsub x risk_min)
                                    (fsub risk_max risk_min)) risk
            else map (fun x => fmul x (Fin 0)) risk)
  | _, _ => None
  end.

(** The normalization loop over the dictionary of components, in insertion
    order. *)
Fixpoint normalize_all (components : list (string * field))
    : option (list (string * field)) :=
  match components with
  | [] => Some []
  | (key, risk) :: rest =>
      match minmax_normalize risk, normalize_all rest with
      | Some n, Some ns => Some ((key, n) :: ns)
      | _, _ => None
      end
  end.

(** Python's [sum]: from [0], adding from the left. *)
Definition py_sum_arrays (terms : list array) : array :=
  fold_left (arr_op fadd) terms (Scalar (Fin 0)).

Definition py_sum (xs : list Q) : Q := fold_left Qplus xs 0.

(** *** process_data_script.py *)

(** [weights.get(key, 1.0)] for the dictionary
    [{'sst': 0.3, 'productivity': 0.4, 'frontal': 0.3}]. *)
Definition weights_get (key : string) : Q :=
  if String.eqb key "sst" then 0.3
  else if String.eqb key "productivity" then 0.4
  else if String.eqb key "frontal" then 0.3
  else 1.0.

(** The weighted sum of the normalized components divided by the sum of
    their weights. *)
Definition weighted_average (normalized : list (string * field)) : array :=
  arr_op fdiv
    (py_sum_arrays
       (map (fun kn => arr_op fmul (Grid (snd kn))
                         (Scalar (Fin (weights_get (fst kn)))))
            normalized))
    (Scalar (Fin (py_sum (map (fun kn => weights_get (fst kn)) normalized)))).

(** The entries of [processed_data] the risk index reads:
    [sst_standardized] at its last time step, [chl_trend], and
    [frontal_zones]. *)
Record processed_data : Type := {
  sst_standardized_last : option field;
  chl_trend : option field;
  frontal_zones : option (list bool)
}.

(** The dictionary [risk_components], in insertion order. *)
Definition risk_components (p : processed_data) : list (string * field) :=
  (match sst_standardized_last p with
   | Some sst => [("sst"%string, map fabs sst)]
   | None => []
   end)
  ++ (match chl_trend p with
      | Some t =>
          [("productivity"%string,
            map (fun x => if flt x (Fin 0) then fneg x else Fin 0) t)]
      | None => []
      end)
  ++ (match frontal_zones p with
      | Some z =>
          [("frontal"%string,
            map (fun b : bool => if b then Fin 1 else Fin 0) z)]
      | None => []
      end).

(** The combination step of [calculate_overfishing_risk_index] on a
    dictionary of components; [None] when the dictionary is empty
    (nothing is stored) or when an exception is raised and caught. *)
Definition combine_risk_components (components : list (string * field))
    : option array :=
  match components with
  | [] => None
  | _ :: _ =>
      match normalize_all components with
      | Some normalized => Some (weighted_average normalized)
      | None => None
      end
  end.

Definition calculate_overfishing_risk_index (p : processed_data)
    : option array :=
  combine_risk_components (risk_components p).

(** *** newer files/data_processing.py *)

(** What [calculate_multifactor_risk_index] finds: the component fields
    that can be computed, and whether fishing and MPA data are loaded. *)
Record multifactor_inputs : Type := {
  environmental_stress : option field;
  has_fishing : bool;
  habitat_degradation : option field;
  connectivity_disruption : option field;
  has_mpa : bool
}.

Definition opt_entry {A : Type} (key : string) (v : option A)
    : list (string * A) :=
  match v with
  | Some a => [(key, a)]
  | None => []
  end.

(** The dictionary [risk_components]. *)
Definition multifactor_components (inp : multifactor_inputs)
    : list (string * field) :=
  opt_entry "environmental_stress" (environmental_stress inp)
  ++ opt_entry "habitat_degradation" (habitat_degradation inp)
  ++ opt_entry "connectivity_disruption" (connectivity_disruption inp).

(** The dictionary [weights]: an entry is added for fishing pressure and
    for the protection gap as soon as the data is loaded, although no
    component is computed for them. *)
Definition multifactor_weights (inp : multifactor_inputs)
    : list (string * Q) :=
  opt_entry "environmental_stress"
    (option_map (fun _ => 0.2) (environmental_stress inp))
  ++ (if has_fishing inp then [("fishing_pressure"%string, 0.3)] else [])
  ++ opt_entry "habitat_degradation"
       (option_map (fun _ => 0.2) (habitat_degradation inp))
  ++ opt_entry "connectivity_disruption"
       (option_map (fun _ => 0.15) (connectivity_disruption inp))
  ++ (if has_mpa inp then [("protection_gap"%string, 0.15)] else []).

(** [weights[key]]: a [KeyError] ([None]) for a missing key. *)
Fixpoint weights_lookup (weights : list (string * Q)) (key : string)
    : option Q :=
  match weights with
  | [] => None
  | (k, w) :: rest =>
      if String.eqb k key then Some w else weights_lookup rest key
  end.

(** The terms [normalized_components[key] * weights[key] / total_weight]. *)
Fixpoint multifactor_terms (weights : list (string * Q)) (total_weight : Q)
    (normalized : list (string * field)) : option (list array) :=
  match normalized with
  | [] => Some []
  | (key, n) :: rest =>
      match weights_lookup weights key,
            multifactor_terms weights total_weight rest with
      | Some w, Some ts =>
          Some (arr_op fdiv (arr_op fmul (Grid n) (Scalar (Fin w)))
                            (Scalar (Fin total_weight)) :: ts)
      | _, _ => None
      end
  end.

(** [calculate_multifactor_risk_index]: the stored risk index; [None] when
    there is no component (nothing is stored) or an exception is raised. *)
Definition calculate_multifactor_risk_index (inp : multifactor_inputs)
    : option array :=
  match multifactor_components inp with
  | [] => None
  | components =>
      match normalize_all components with
      | Some normalized =>
          let total_weight := py_sum (map snd (multifactor_weights inp)) in
          match multifactor_terms (multifactor_weights inp) total_weight
                  normalized with
          | Some terms => Some (py_sum_arrays terms)
          | None => None
          end
      | None => None
      end
  end.

(** *** The composition rule as the specification words it *)

Definition qsum (xs : list Q) : Q := fold_right Qplus 0 xs.

Definition qmin2 (a b : Q) : Q := if Qltb b a then b else a.
Definition qmax2 (a b : Q) : Q := if Qltb a b then b else a.

(** Least and greatest value of a field of finite numbers (0 on the empty
    field, which has none). *)
Definition list_min (f : list Q) : Q :=
  match f with
  | [] => 0
  | x :: rest => fold_left qmin2 rest x
  end.

Definition list_max (f : list Q) : Q :=
  match f with
  | [] => 0
  | x :: rest => fold_left qmax2 rest x
  end.

(** Min-max normalization of the value [x] of the field [f]; a constant
    field normalizes to zero. *)
Definition spec_minmax (f : list Q) (x : Q) : Q :=
  if Qltb (list_min f) (list_max f)
  then (x - list_min f) / (list_max f - list_min f)
  else 0.

(** Cell [i] of the combined index: the weighted sum of the normalized
    factors present, divided by the sum of their weights. *)
Definition spec_risk_index (weight : string -> Q)
    (factors : list (string * list Q)) (i : nat) : Q :=
  qsum (map (fun kf => weight (fst kf)
                       * spec_minmax (snd kf) (nth i (snd kf) 0))
            factors)
  / qsum (map (fun kf => weight (fst kf)) factors).

(** A field of finite numbers as the composer receives it. *)
Definition finite_field (f : list Q) : field := map Fin f.

Definition finite_components (factors : list (string * list Q))
    : list (string * field) :=
  map (fun kf => (fst kf, finite_field (snd kf))) factors.

(** Cell [i] of an array holds a finite number equal to [q]. *)
Definition cell_is (a : array) (i : nat) (q : Q) : Prop :=
  match a with
  | Scalar _ => False
  | Grid g => exists q', nth_error g i = Some (Fin q') /\ q' == q
  end.

(** The grid [g] has [n] cells, all finite, cell [i] equal to [F i]. *)
Definition fin_grid (n : nat) (F : nat -> Q) (g : field) : Prop :=
  length g = n /\
  forall i, (i < n)%nat ->
    exists q', nth_error g i = Some (Fin q') /\ q' == F i.

(** A factor and its normalized field, as the loop pairs them. *)
Definition normalized_as (kf : string * list Q) (kn : string * field) : Prop :=
  fst kn = fst kf /\
  fin_grid (length (snd kf))
           (fun i => spec_minmax (snd kf) (nth i (snd kf) 0)) (snd kn).

(** The weights the multifactor composer declares per factor. *)
Definition multifactor_weight (key : string) : Q :=
  if String.eqb key "environmental_stress" then 0.2
  else if String.eqb key "fishing_pressure" then 0.3
  else if String.eqb key "habitat_degradation" then 0.2
  else if String.eqb key "connectivity_disruption" then 0.15
  else if String.eqb key "protection_gap" then 0.15
  else 0.

(** Processed data whose fields hold finite numbers only. *)
Definition finite_processed (sst trend : option (list Q))
    (zones : option (list bool)) : processed_data :=
  {| sst_standardized_last := option_map finite_field sst;
     chl_trend := option_map finite_field trend;
     frontal_zones := zones |}.

(** The factor fields [calculate_overfishing_risk_index] derives from
    them. *)
Definition derived_factors (sst trend : option (list Q))
    (zones : option (list bool)) : list (string * list Q) :=
  opt_entry "sst" (option_map (map Qabs) sst)
  ++ opt_entry "productivity"
       (option_map (map (fun x => if Qltb x 0 then - x else 0)) trend)
  ++ opt_entry "frontal"
       (option_map (map (fun b : bool => if b then 1 else 0)) zones).

(** Multifactor inputs whose fields hold finite numbers only. *)
Definition finite_multifactor (env : option (list Q)) (fishing : bool)
    (hab conn : option (list Q)) (mpa : bool) : multifactor_inputs :=
  {| environmental_stress := option_map finite_field env;
     has_fishing := fishing;
     habitat_degradation := option_map finite_field hab;
     connectivity_disruption := option_map finite_field conn;
     has_mpa := mpa |}.

(** The factor fields they supply. *)
Definition multifactor_factors (env hab conn : option (list Q))
    : list (string * list Q) :=
  opt_entry "environmental_stress" env
  ++ opt_entry "habitat_degradation" hab
  ++ opt_entry "connectivity_disruption" conn.

(** The weights declared for factors that have no field. *)
Definition fieldless_weight (fishing mpa : bool) : Q :=
  (if fishing then 0.3 else 0) + (if mpa then 0.15 else 0).

(** Temperature data and fishing data are loaded; habitat quality,
    larval connectivity and MPA data are not.  The environmental stress
    is 0 at the first cell and 1 at the second. *)
Definition sst_and_fishing : multifactor_inputs :=
  {| environmental_stress := Some (finite_field [0; 1]);
     has_fishing := true;
     habitat_degradation := None;
     connectivity_disruption := None;
     has_mpa := false |}.

End Risk.

(** ** Temperature anomalies ([calculate_sst_anomaly],
       process_data_script.py) *)

Module Anomaly.
Import Floats.
Local Open Scope R_scope.

(** One time step of the series of a grid cell: its calendar month and
    the temperature. *)
Record sample : Type := {
  month : nat;
  value : R
}.

Definition rsum (xs : list R) : R := fold_right Rplus 0 xs.

(** [mean('time')] over a group. *)
Definition mean (xs : list R) : R := rsum xs / INR (length xs).

(** [std('time')] over a group (population standard deviation, numpy's
    default). *)
Definition std (xs : list R) : R :=
  sqrt (mean (map (fun x => (x - mean xs) ^ 2) xs)).

(** The values [groupby('time.month')] puts in the group of month [m]. *)
Definition group (m : nat) (series : list sample) : list R :=
  map value (filter (fun s => (month s =? m)%nat) series).

Definition sst_climatology (series : list sample) (m : nat) : R :=
  mean (group m series).

Definition sst_std (series : list sample) (m : nat) : R :=
  std (group m series).

(** Division of two finite doubles, with its exceptional results. *)
Definition rdiv (a b : R) : xfloat R :=
  if Req_dec_T b 0
  then if Req_dec_T a 0 then NaN
       else if Rlt_dec 0 a then PInf else NInf
  else Fin (a / b).

(** [sst.groupby('time.month') - sst_climatology], per time step. *)
Definition sst_anomaly (series : list sample) : list R :=
  map (fun s => value s - sst_climatology series (month s)) series.

(** [(sst.groupby('time.month') - sst_climatology) / sst_std], each time
    step divided by the standard deviation of its month. *)
Definition sst_standardized (series : list sample) : list (xfloat R) :=
  map (fun s => rdiv (value s - sst_climatology series (month s))
                     (sst_std series (month s))) series.

(** One full seasonal cycle of monthly means at one cell. *)
Definition one_year : list sample :=
  [ {| month := 1; value := 14.1 |};  {| month := 2; value := 13.8 |};
    {| month := 3; value := 14.3 |};  {| month := 4; value := 15.9 |};
    {| month := 5; value := 18.7 |};  {| month := 6; value := 22.4 |};
    {| month := 7; value := 25.6 |};  {| month := 8; value := 26.3 |};
    {| month := 9; value := 24.2 |};  {| month := 10; value := 21.0 |};
    {| month := 11; value := 17.8 |}; {| month := 12; value := 15.2 |} ].

End Anomaly.

(** ** The scenario dictionary, [compare_scenarios] and [load_baseline]
       (train_models_script.py) *)

Module Scenarios.
Import Simulator.
Local Open Scope R_scope.

(** [self.scenarios.get(key)] for the key of the percentage [p]: the
    latest binding. *)
Fixpoint scenarios_get (d : list (R * scenario)) (p : R) : option scenario :=
  match d with
  | [] => None
  | (q, sc) :: rest =>
      if Req_dec_T q p then Some sc else scenarios_get rest p
  end.

(** A row of the comparison table. *)
Record comparison_row : Type := {
  row_expansion_pct : R;
  row_final_stock : R;
  row_final_biodiversity : R;
  row_economic_benefit_10yr : R
}.

(** [compare_scenarios(expansion_percentages)]: one simulation per
    percentage with the default ten years, one row each, in order.  An
    exception of a simulation, or of [economic_benefit_usd[-1]], ends the
    method ([None]). *)
Fixpoint compare_scenarios (self : MPASimulator) (expansion_percentages : list R)
    : option (MPASimulator * list comparison_row) :=
  match expansion_percentages with
  | [] => Some (self, [])
  | exp_pct :: rest =>
      match simulate_expansion self exp_pct 10 with
      | None => None
      | Some (self', sc) =>
          match last_entry (economic_benefit_usd sc) with
          | None => None
          | Some benefit =>
              match compare_scenarios self' rest with
              | None => None
              | Some (self'', rows) =>
                  Some (self'',
                        {| row_expansion_pct := exp_pct;
                           row_final_stock := final_stock_level sc;
                           row_final_biodiversity := final_biodiversity sc;
                           row_economic_benefit_10yr := benefit |} :: rows)
              end
          end
      end
  end.

(** What [load_baseline] finds on disk: no summary file, a summary without
    the [mpa_stats] column, or the column, whose first cell either fails to
    read or parse ([None]) or parses to a dictionary that may hold
    [coverage_percentage]. *)
Inductive summary_csv : Type :=
| SummaryMissing
| SummaryWithoutMpa
| SummaryMpa (cell : option (option R)).

(** [load_baseline]: [None] when reading the cell raises. *)
Definition load_baseline (self : MPASimulator) (f : summary_csv)
    : option MPASimulator :=
  match f with
  | SummaryMissing | SummaryWithoutMpa =>
      Some {| baseline_coverage := Some 5.0; scenarios := scenarios self |}
  | SummaryMpa None => None
  | SummaryMpa (Some stats) =>
      Some {| baseline_coverage :=
                Some (match stats with Some c => c | None => 0 end);
              scenarios := scenarios self |}
  end.

End Scenarios.

(** ** Training rows ([OverfishingRiskModel.prepare_training_data],
       train_models_script.py) *)

Module Training.
Import Floats.
Local Open Scope Q_scope.





End Training.

(** ** Risk classes ([calculate_overfishing_risk_index] and
       [generate_processing_report], process_data_script.py;
       [calculate_multifactor_risk_index], newer files/data_processing.py) *)

Module RiskClass.
Import Floats Risk.
Local Open Scope Q_scope.

(** ['low'], ['medium'], ['high'] in process_data_script.py; [1], [2],
    [3] in data_processing.py. *)
Inductive risk_level : Type := Low | Medium | High.

(** [a <= b]; false as soon as a NaN is involved. *)
Definition fle (a b : xfloat Q) : bool :=
  match a, b with
  | Fin x, Fin y => Qle_bool x y
  | NaN, _ | _, NaN => false
  | NInf, _ | _, PInf => true
  | _, _ => false
  end.

(** One cell of
    [xr.where(risk_index < 0.3, 'low',
              xr.where(risk_index < 0.6, 'medium', 'high'))]. *)
Definition risk_class_of (x : xfloat Q) : risk_level :=
  if flt x (Fin 0.3) then Low
  else if flt x (Fin 0.6) then Medium
  else High.

(** The classified field. *)
Definition risk_class (risk_index : field) : list risk_level :=
  map risk_class_of risk_index.

(** One cell of the three masks whose areas are printed:
    [risk_index < 0.3], [(risk_index >= 0.3) & (risk_index < 0.6)],
    [risk_index >= 0.6]. *)
Definition mask_low (x : xfloat Q) : bool := flt x (Fin 0.3).
Definition mask_medium (x : xfloat Q) : bool :=
  fle (Fin 0.3) x && flt x (Fin 0.6).
Definition mask_high (x : xfloat Q) : bool := fle (Fin 0.6) x.

(** One cell of [risk > 0.6], the mask of the "High-risk areas" line of
    the processing report. *)
Definition report_high (x : xfloat Q) : bool := flt (Fin 0.6) x.

End RiskClass.

(** ** Fields with missing cells *)

Module FieldValues.
Import Floats Risk.

(** The numbers a field holds, its NaN and infinite cells left out. *)
Definition finite_values (cells : field) : list Q :=
  flat_map (fun c => match c with Fin q => [q] | _ => [] end) cells.

(** A cell that is a number or missing (NaN), not an infinity. *)
Definition number_or_missing (c : xfloat Q) : Prop :=
  c = NaN \/ exists q, c = Fin q.

End FieldValues.

(** ** Fisher livelihoods ([assess_fisher_livelihoods_impact],
       newer files/data_processing.py) *)

Module Livelihoods.
Import Coverage.
Local Open Scope Q_scope.

(** The [fishing] table: its [fishing_hours] column, when it has one. *)
Record fishing_table : Type := {
  fishing_hours : option (list Q)
}.

(** One entry of [scenarios]. *)
Record livelihood_row : Type := {
  mpa_expansion_pct : Q;
  immediate_job_displacement : Q;
  longterm_job_creation : Q;
  net_jobs_after_recovery : Q;
  years_to_recovery : Q;
  immediate_economic_impact_usd : Q;
  longterm_economic_benefit_usd : Q;
  breakeven_year : Q
}.

(** How a call ends: the early return, which stores nothing; the
    [UnboundLocalError] of reading [estimated_jobs] before any assignment;
    or the table stored under [socioeconomic_scenarios]. *)
Inductive outcome : Type :=
| Skipped
| UnboundLocalError
| Stored (rows : list livelihood_row).

(** The body of the loop for one percentage. *)
Definition scenario_row (estimated_jobs expansion_pct : Q) : livelihood_row :=
  let immediate_job_loss := estimated_jobs * (expansion_pct / 100) * 0.6 in
  let years_to_recovery := 7 in
  let spillover_multiplier := 1.3 in
  let longterm_job_creation := immediate_job_loss * spillover_multiplier in
  let net_longterm_jobs :=
    estimated_jobs - immediate_job_loss + longterm_job_creation in
  let avg_income_per_job := 30000 in
  let immediate_economic_loss := immediate_job_loss * avg_income_per_job in
  let longterm_economic_gain :=
    (net_longterm_jobs - estimated_jobs) * avg_income_per_job in
  {| mpa_expansion_pct := expansion_pct;
     immediate_job_displacement := immediate_job_loss;
     longterm_job_creation := longterm_job_creation;
     net_jobs_after_recovery := net_longterm_jobs;
     years_to_recovery := years_to_recovery;
     immediate_economic_impact_usd := immediate_economic_loss;
     longterm_economic_benefit_usd := longterm_economic_gain;
     breakeven_year := years_to_recovery * 0.7 |}.

(** The loop over the percentages.  The local [estimated_jobs] is read at
    every iteration; it is unbound ([None]) when the table has no
    [fishing_hours] column, and the read raises. *)
Fixpoint scenario_rows (estimated_jobs : option Q) (percentages : list Q)
    : option (list livelihood_row) :=
  match percentages with
  | [] => Some []
  | expansion_pct :: rest =>
      match estimated_jobs with
      | None => None
      | Some jobs =>
          option_map (cons (scenario_row jobs expansion_pct))
                     (scenario_rows estimated_jobs rest)
      end
  end.

(** [assess_fisher_livelihoods_impact]: [fishing] is [self.data.get
    ('fishing')], [fao_stats] tells whether [self.data] has the key
    ['fao_stats']. *)
Definition assess_fisher_livelihoods_impact
    (fishing : option fishing_table) (fao_stats : bool) : outcome :=
  match fishing with
  | None => Skipped
  | Some fishing_effort =>
      if negb fao_stats then Skipped
      else
        let estimated_jobs :=
          option_map (fun hours => series_sum hours / 2000)
                     (fishing_hours fishing_effort) in
        match scenario_rows estimated_jobs [10; 20; 30; 50] with
        | None => UnboundLocalError
        | Some rows => Stored rows
        end
  end.

End Livelihoods.

(** ** The time windows of [calculate_larval_connectivity]
       (newer files/data_processing.py) *)

Module Connectivity.
Local Open Scope Z_scope.

(** The windows [(t_start, t_end)] of time steps whose mean velocity field
    enters the connectivity, for a time axis of [len_time] steps.  [None]
    is the [ZeroDivisionError] of [len(u.time) // time_window]. *)
Definition batch_windows (len_time : nat) : option (list (Z * Z)) :=
  let n := Z.of_nat len_time in
  let time_window := Z.min 10 n in
  if time_window =? 0 then None
  else
    let num_batches := Z.max 1 (n / time_window) in
    Some (flat_map
            (fun batch_idx : nat =>
               let t_start := Z.of_nat batch_idx * time_window in
               let t_end := Z.min (t_start + time_window) n in
               if t_end - t_start <? 2 then [] else [(t_start, t_end)])
            (seq 0 (Z.to_nat (Z.min 3 num_batches)))).

End Connectivity.

(** ** The habitat quality index of [calculate_ebfm_indicators]
       (newer files/data_processing.py) *)

Module Habitat.
Import Floats RiskClass.
Local Open Scope Q_scope.

(** One cell of [1 - np.abs((temp_mean - 18.5) / 18.5)], kept where
    [(temp_mean >= 13) & (temp_mean <= 24)] and 0 elsewhere. *)
Definition temp_score (temp_mean : xfloat Q) : xfloat Q :=
  let score :=
    fsub (Fin 1) (fabs (fdiv (fsub temp_mean (Fin 18.5)) (Fin 18.5))) in
  if fle (Fin 13) temp_mean && fle temp_mean (Fin 24) then score else Fin 0.

(** One cell of [chl_mean / chl_95], then
    [xr.where(chl_score > 1, 1, chl_score)]. *)
Definition chl_score (chl_mean chl_95 : xfloat Q) : xfloat Q :=
  let score := fdiv chl_mean chl_95 in
  if flt (Fin 1) score then Fin 1 else score.

(** One cell of [1 / (1 + temp_std / temp_mean)]. *)
Definition temp_stability (temp_std temp_mean : xfloat Q) : xfloat Q :=
  fdiv (Fin 1) (fadd (Fin 1) (fdiv temp_std temp_mean)).

(** One cell of [(temp_score + chl_score_aligned + temp_stability) / 3]. *)
Definition habitat_quality (temp_mean temp_std chl_mean chl_95 : xfloat Q)
    : xfloat Q :=
  fdiv (fadd (fadd (temp_score temp_mean) (chl_score chl_mean chl_95))
             (temp_stability temp_std temp_mean))
       (Fin 3).

(** One cell of [habitat_quality > high_quality_threshold]. *)
Definition high_quality (q : xfloat Q) : bool := flt (Fin 0.7) q.

End Habitat.


(* ================================================================== *)
(** * Part II: theorems                                                *)
(* ================================================================== *)

Section SimulatorFacts.
Import Simulator.
Local Open Scope R_scope.

Lemma last_entry_map (f : R -> R) (a : list R) :
  last_entry (map f a) = option_map f (last_entry a).
Proof.
  destruct a as [|x a]; simpl; [reflexivity|].
  f_equal. revert x. induction a as [|y a IH]; intros x; simpl; [reflexivity|].
  destruct a; simpl in *; [reflexivity|]. apply IH.
Qed.

Lemma years_array_length (n : Z) :
  length (years_array n) = Z.to_nat (n + 1).
Proof. unfold years_array. now rewrite length_map, length_seq. Qed.

Lemma years_array_nth (n : Z) (t : nat) :
  (t < Z.to_nat (n + 1))%nat -> nth t (years_array n) 0 = INR t.
Proof.
  intros Ht. unfold years_array.
  change 0 with (INR 0). rewrite map_nth, seq_nth by assumption. reflexivity.
Qed.

Lemma last_entry_years (n : Z) :
  (0 <= n)%Z -> last_entry (years_array n) = Some (INR (Z.to_nat n)).
Proof.
  intros Hn. unfold years_array.
  replace (Z.to_nat (n + 1)) with (S (Z.to_nat n)) by lia.
  rewrite seq_S, map_app. simpl.
  destruct (map INR (seq 0 (Z.to_nat n))) as [|x l] eqn:E; simpl;
    [reflexivity|].
  f_equal. rewrite <- (last_last (x :: l) (INR (Z.to_nat n)) x) at 2.
  simpl. destruct l; reflexivity.
Qed.

Lemma exp_le_mono (x y : R) : x <= y -> exp x <= exp y.
Proof.
  intros [Hlt | ->]; [left; now apply exp_increasing | right; reflexivity].
Qed.

(** The logistic closed form as a function of the decay factor [e]. *)
Lemma logistic_antitone (e1 e2 : R) :
  0 < e2 -> e2 <= e1 ->
  K / (1 + ((K - initial_stock) / initial_stock) * e1)
  <= K / (1 + ((K - initial_stock) / initial_stock) * e2).
Proof.
  intros H2 H12. unfold K, initial_stock.
  replace ((1.5 - 0.6) / 0.6) with 1.5 by lra.
  unfold Rdiv. apply Rmult_le_compat_l; [lra|].
  apply Rinv_le_contravar; lra.
Qed.

Lemma stock_at_mono_rate (r1 r2 t : R) :
  0 <= t -> r1 <= r2 -> stock_at r1 t <= stock_at r2 t.
Proof.
  intros Ht Hr. unfold stock_at.
  apply logistic_antitone; [apply exp_pos|].
  apply exp_le_mono. nra.
Qed.

Lemma stock_at_mono_time (r t1 t2 : R) :
  0 <= r -> t1 <= t2 -> stock_at r t1 <= stock_at r t2.
Proof.
  intros Hr Ht. unfold stock_at.
  apply logistic_antitone; [apply exp_pos|].
  apply exp_le_mono. nra.
Qed.

Lemma stock_at_zero (r : R) : stock_at r 0 = 0.6.
Proof.
  unfold stock_at, K, initial_stock.
  rewrite Rmult_0_r, exp_0. lra.
Qed.

Lemma stock_at_below_capacity (r t : R) : stock_at r t < 1.5.
Proof.
  unfold stock_at, K, initial_stock.
  replace ((1.5 - 0.6) / 0.6) with 1.5 by lra.
  pose proof (exp_pos (- r * t)) as He.
  apply Rmult_lt_reg_r with (1 + 1.5 * exp (- r * t)); [lra|].
  unfold Rdiv. rewrite Rmult_assoc, Rinv_l by lra. lra.
Qed.

Lemma stock_at_above_initial (r t : R) :
  0 <= r -> 0 <= t -> 0.6 <= stock_at r t.
Proof.
  intros Hr Ht. rewrite <- (stock_at_zero r).
  now apply stock_at_mono_time.
Qed.

(** A successful run exists as soon as the baseline is loaded and the
    year count is not negative; its arrays are the pointwise curves. *)
Lemma simulate_expansion_total (self : MPASimulator) (b p : R) (n : Z) :
  baseline_coverage self = Some b -> (0 <= n)%Z ->
  run_stock self p n = Some (map (stock_at (rate p)) (years_array n)) /\
  run_final_stock self p n = Some (stock_at (rate p) (INR (Z.to_nat n))).
Proof.
  intros Hb Hn. unfold run_stock, run_final_stock, simulate_expansion.
  rewrite Hb. rewrite !last_entry_map, (last_entry_years n Hn). simpl.
  split; reflexivity.
Qed.

Lemma stock_entry (p : R) (n : Z) (t : nat) :
  (Z.of_nat t <= n)%Z ->
  nth t (map (stock_at (rate p)) (years_array n)) 0 = stock_at (rate p) (INR t).
Proof.
  intros Ht.
  rewrite (nth_indep _ 0 (stock_at (rate p) 0)).
  - rewrite map_nth. f_equal. apply years_array_nth. lia.
  - rewrite length_map, years_array_length. lia.
Qed.

(** Rational enclosure of [exp (-1.4)], by six squarings of the tangent
    bound [1 + x <= exp x] at [x = -1.4/64] and [x = 1.4/64]. *)
Lemma exp_double_lower (a b x : R) :
  0 <= a -> a <= exp x -> b <= a * a -> b <= exp (x + x).
Proof. intros Ha Hx Hb. rewrite exp_plus. nra. Qed.

Lemma exp_minus_1_4_lower : 0.2419 <= exp (- 1.4).
Proof.
  assert (H0 : 0.978125 <= exp (- (1.4 / 64))).
  { pose proof (exp_ineq1_le (- (1.4 / 64))). lra. }
  assert (H1 : 0.9567 <= exp (- (1.4 / 32))).
  { replace (- (1.4 / 32)) with (- (1.4 / 64) + - (1.4 / 64)) by lra.
    apply (exp_double_lower 0.978125); [lra | exact H0 | lra]. }
  assert (H2 : 0.9152 <= exp (- (1.4 / 16))).
  { replace (- (1.4 / 16)) with (- (1.4 / 32) + - (1.4 / 32)) by lra.
    apply (exp_double_lower 0.9567); [lra | exact H1 | lra]. }
  assert (H3 : 0.8375 <= exp (- (1.4 / 8))).
  { replace (- (1.4 / 8)) with (- (1.4 / 16) + - (1.4 / 16)) by lra.
    apply (exp_double_lower 0.9152); [lra | exact H2 | lra]. }
  assert (H4 : 0.7014 <= exp (- (1.4 / 4))).
  { replace (- (1.4 / 4)) with (- (1.4 / 8) + - (1.4 / 8)) by lra.
    apply (exp_double_lower 0.8375); [lra | exact H3 | lra]. }
  assert (H5 : 0.4919 <= exp (- (1.4 / 2))).
  { replace (- (1.4 / 2)) with (- (1.4 / 4) + - (1.4 / 4)) by lra.
    apply (exp_double_lower 0.7014); [lra | exact H4 | lra]. }
  replace (- 1.4) with (- (1.4 / 2) + - (1.4 / 2)) by lra.
  apply (exp_double_lower 0.4919); [lra | exact H5 | lra].
Qed.

Lemma exp_minus_1_4_upper : exp (- 1.4) <= 0.2509.
Proof.
  assert (H0 : 1.021875 <= exp (1.4 / 64)).
  { pose proof (exp_ineq1_le (1.4 / 64)). lra. }
  assert (H1 : 1.0442 <= exp (1.4 / 32)).
  { replace (1.4 / 32) with (1.4 / 64 + 1.4 / 64) by lra.
    apply (exp_double_lower 1.021875); [lra | exact H0 | lra]. }
  assert (H2 : 1.0903 <= exp (1.4 / 16)).
  { replace (1.4 / 16) with (1.4 / 32 + 1.4 / 32) by lra.
    apply (exp_double_lower 1.0442); [lra | exact H1 | lra]. }
  assert (H3 : 1.1887 <= exp (1.4 / 8)).
  { replace (1.4 / 8) with (1.4 / 16 + 1.4 / 16) by lra.
    apply (exp_double_lower 1.0903); [lra | exact H2 | lra]. }
  assert (H4 : 1.413 <= exp (1.4 / 4)).
  { replace (1.4 / 4) with (1.4 / 8 + 1.4 / 8) by lra.
    apply (exp_double_lower 1.1887); [lra | exact H3 | lra]. }
  assert (H5 : 1.9965 <= exp (1.4 / 2)).
  { replace (1.4 / 2) with (1.4 / 4 + 1.4 / 4) by lra.
    apply (exp_double_lower 1.413); [lra | exact H4 | lra]. }
  assert (H6 : 3.986 <= exp 1.4).
  { replace 1.4 with (1.4 / 2 + 1.4 / 2) at 1 by lra.
    apply (exp_double_lower 1.9965); [lra | exact H5 | lra]. }
  replace (exp (- 1.4)) with (/ exp 1.4)
    by (rewrite <- exp_Ropp; f_equal; lra).
  apply Rmult_le_reg_r with (exp 1.4); [lra|].
  rewrite Rinv_l by lra. nra.
Qed.

Lemma stock_20pct_year_10 :
  Rabs (stock_at (rate 20) 10 - 1.095) <= 0.01.
Proof.
  unfold stock_at, rate, base_recovery_rate, K, initial_stock.
  replace (- (0.07 * (20 / 10)) * 10) with (- 1.4) by lra.
  replace ((1.5 - 0.6) / 0.6) with 1.5 by lra.
  pose proof exp_minus_1_4_lower as Hl.
  pose proof exp_minus_1_4_upper as Hu.
  set (e := exp (- 1.4)) in *.
  assert (Hd : 0 < 1 + 1.5 * e) by lra.
  assert (Hq : 1.5 / (1 + 1.5 * e) * (1 + 1.5 * e) = 1.5).
  { unfold Rdiv. rewrite Rmult_assoc, Rinv_l by lra. lra. }
  set (q := 1.5 / (1 + 1.5 * e)) in *.
  apply Rabs_le. split; nra.
Qed.

(** C3.  Every entry of the simulator's [stock_recovery] array is the
    logistic closed form [K / (1 + ((K - 0.6) / 0.6) * exp (- r * t))] with
    [K = 1.5] and [r = 0.07 * (p / 10)], for every expansion percentage [p]
    and every year [t] of the run; and with baseline coverage 5.0, expansion
    20 and 10 years, the final stock level is within 0.01 of 1.095. *)
Theorem C3_stock_recovery_closed_form :
  forall (self : MPASimulator) (b p : R) (nyears : Z) (t : nat),
    baseline_coverage self = Some b ->
    (Z.of_nat t <= nyears)%Z ->
    exists s : list R,
      run_stock self p nyears = Some s /\
      nth t s 0
      = 1.5 / (1 + ((1.5 - 0.6) / 0.6) * exp (- (0.07 * (p / 10)) * INR t)) /\
      (b = 5.0 -> p = 20 -> nyears = 10%Z ->
       exists f : R,
         run_final_stock self p nyears = Some f /\
         nth 10 s 0 = f /\
         Rabs (f - 1.095) <= 0.01).
Proof.
  intros self b p nyears t Hb Ht.
  assert (Hn : (0 <= nyears)%Z) by lia.
  destruct (simulate_expansion_total self b p nyears Hb Hn) as [Hs Hf].
  exists (map (stock_at (rate p)) (years_array nyears)).
  split; [exact Hs|]. split.
  - rewrite stock_entry by assumption. reflexivity.
  - intros _ -> ->. exists (stock_at (rate 20) (INR (Z.to_nat 10))).
    split; [exact Hf|]. split.
    + rewrite stock_entry by lia. reflexivity.
    + replace (INR (Z.to_nat 10)) with 10 by (simpl; lra).
      exact stock_20pct_year_10.
Qed.

Lemma C3_witness :
  exists f : R,
    run_final_stock {| baseline_coverage := Some 5.0; scenarios := [] |} 20 10
    = Some f /\
    Rabs (f - 1.095) <= 0.01.
Proof.
  destruct (C3_stock_recovery_closed_form
              {| baseline_coverage := Some 5.0; scenarios := [] |}
              5.0 20 10%Z 10%nat eq_refl
              (proj1 (Z.leb_le 10 10) eq_refl))
    as (s & _ & _ & H).
  destruct (H eq_refl eq_refl eq_refl) as (f & Hf & _ & Habs).
  exists f. split; assumption.
Defined.

(** C4.  With the baseline and the number of years fixed, the stock
    recovery at a given year does not decrease when the expansion
    percentage grows. *)
Theorem C4_stock_monotone_in_expansion :
  forall (self : MPASimulator) (b p1 p2 : R) (nyears : Z) (t : nat),
    baseline_coverage self = Some b ->
    (Z.of_nat t <= nyears)%Z ->
    p1 <= p2 ->
    exists s1 s2 : list R,
      run_stock self p1 nyears = Some s1 /\
      run_stock self p2 nyears = Some s2 /\
      (t < length s1)%nat /\ (t < length s2)%nat /\
      nth t s2 0 >= nth t s1 0.
Proof.
  intros self b p1 p2 nyears t Hb Ht Hp.
  assert (Hn : (0 <= nyears)%Z) by lia.
  destruct (simulate_expansion_total self b p1 nyears Hb Hn) as [Hs1 _].
  destruct (simulate_expansion_total self b p2 nyears Hb Hn) as [Hs2 _].
  exists (map (stock_at (rate p1)) (years_array nyears)),
         (map (stock_at (rate p2)) (years_array nyears)).
  repeat split; try assumption.
  - rewrite length_map, years_array_length. lia.
  - rewrite length_map, years_array_length. lia.
  - rewrite !stock_entry by assumption. apply Rle_ge.
    apply stock_at_mono_rate; [apply pos_INR|].
    unfold rate, base_recovery_rate. lra.
Qed.

Lemma C4_witness :
  exists s1 s2 : list R,
    run_stock {| baseline_coverage := Some 5.0; scenarios := [] |} 10 10
    = Some s1 /\
    run_stock {| baseline_coverage := Some 5.0; scenarios := [] |} 20 10
    = Some s2 /\
    nth 10 s2 0 >= nth 10 s1 0.
Proof.
  destruct (C4_stock_monotone_in_expansion
              {| baseline_coverage := Some 5.0; scenarios := [] |}
              5.0 10 20 10%Z 10%nat eq_refl
              (proj1 (Z.leb_le 10 10) eq_refl)
              ltac:(lra))
    as (s1 & s2 & H1 & H2 & _ & _ & H).
  exists s1, s2. repeat split; assumption.
Defined.



End SimulatorFacts.

Section CoverageFacts.
Import Coverage.
Local Open Scope Q_scope.

(** C8.  The coverage percentage is the total projected MPA area in km²
    divided by the constant 2.5e6 km², times 100; a total of 125,000 km²
    gives exactly 5. *)
Theorem C8_coverage_percentage :
  forall areas_m2 : list Q,
    exists st : mpa_stats,
      calculate_mpa_coverage (Some areas_m2) = Some st /\
      total_mpa_area_km2 st == series_sum areas_m2 / 1e6 /\
      coverage_percentage st == total_mpa_area_km2 st / 2.5e6 * 100 /\
      (total_mpa_area_km2 st == 125000 -> coverage_percentage st == 5).
Proof.
  intros areas. eexists. split; [reflexivity|]. simpl.
  split; [reflexivity|]. split; [reflexivity|].
  intros H. unfold med_total_area. rewrite H. reflexivity.
Qed.

Lemma C8_witness :
  exists st : mpa_stats,
    calculate_mpa_coverage (Some [100000e6; 25000e6]) = Some st /\
    coverage_percentage st == 5.
Proof.
  destruct (C8_coverage_percentage [100000e6; 25000e6])
    as (st & Hst & Hkm & Hcov & H5).
  exists st. split; [exact Hst|].
  apply H5. rewrite Hkm. reflexivity.
Defined.

End CoverageFacts.

Section ProximityFacts.
Import Proximity.
Local Open Scope Q_scope.

Variable point : Type.
Variable geometry : Type.
Variable distance : point -> geometry -> option Q.

Lemma py_min_le_one (x : Q) : x <= 1 -> py_min 1.0 x == x.
Proof.
  intros Hx. unfold py_min. destruct (Qlt_le_dec x 1.0) as [_ | Hge].
  - reflexivity.
  - apply Qle_antisym; [exact Hge|].
    eapply Qle_trans; [exact Hx | discriminate].
Qed.

Lemma score_in_range (d : Q) :
  0 <= d -> d < 0.05 -> py_min 1.0 (1 - d * 20) == Qmax 0 (1 - 20 * d).
Proof.
  intros H0 H5.
  assert (Hle : 1 - d * 20 <= 1).
  { rewrite <- (Qplus_0_r 1) at 2. unfold Qminus.
    apply Qplus_le_r. setoid_replace 0 with (- 0) by reflexivity.
    apply Qopp_le_compat. apply Qmult_le_0_compat; [exact H0 | discriminate]. }
  rewrite (py_min_le_one _ Hle).
  assert (Hpos : 0 <= 1 - 20 * d).
  { unfold Qminus. rewrite <- Qle_minus_iff.
    setoid_replace 1 with (20 * 0.05) by reflexivity.
    apply Qmult_le_l; [reflexivity|]. apply Qlt_le_weak. exact H5. }
  rewrite (Q.max_r _ _ Hpos). ring.
Qed.

Lemma scan_mpas_at_most_one (c : cluster point)
    (mpas : list (mpa_row geometry)) :
  (length (scan_mpas distance c mpas) <= 1)%nat.
Proof.
  induction mpas as [|m rest IH]; simpl; [lia|].
  destruct (distance _ _) as [d|]; [|exact IH].
  destruct (Qlt_le_dec d 0.05); [simpl; lia | exact IH].
Qed.

Lemma scan_mpas_flagged_iff (c : cluster point)
    (mpas : list (mpa_row geometry)) :
  (exists m d, In m mpas /\
               distance (cluster_centroid c) (mpa_geometry m) = Some d /\
               d < 0.05)
  <-> scan_mpas distance c mpas <> [].
Proof.
  induction mpas as [|m rest IH]; simpl.
  - split; [intros (m & d & [] & _) | intros H; now contradiction H].
  - destruct (distance (cluster_centroid c) (mpa_geometry m)) as [d|] eqn:Ed.
    + destruct (Qlt_le_dec d 0.05) as [Hlt | Hge].
      * split; [discriminate|]. intros _. exists m, d. auto.
      * rewrite <- IH. split.
        -- intros (m' & d' & [-> | Hin] & Hd & Hlt).
           ++ rewrite Ed in Hd. injection Hd as ->.
              exfalso. apply (Qlt_irrefl d'). eapply Qlt_le_trans; eauto.
           ++ exists m', d'. auto.
        -- intros (m' & d' & Hin & Hd & Hlt). exists m', d'. auto.
    + rewrite <- IH. split.
      * intros (m' & d' & [-> | Hin] & Hd & Hlt).
        -- rewrite Ed in Hd. discriminate.
        -- exists m', d'. auto.
      * intros (m' & d' & Hin & Hd & Hlt). exists m', d'. auto.
Qed.

Lemma scan_mpas_first_qualifying (c : cluster point)
    (mpas : list (mpa_row geometry)) (r : suspect) :
  In r (scan_mpas distance c mpas) ->
  exists pre m post d,
    mpas = pre ++ m :: post /\
    (forall m' d', In m' pre ->
       distance (cluster_centroid c) (mpa_geometry m') = Some d' ->
       0.05 <= d') /\
    distance (cluster_centroid c) (mpa_geometry m) = Some d /\
    d < 0.05 /\
    scan_mpas distance c mpas = [r] /\
    s_cluster_id r = cluster_id c /\
    near_mpa r = mpa_label m /\
    risk_score r = py_min 1.0 (1 - d * 20).
Proof.
  induction mpas as [|m rest IH]; simpl; [intros []|].
  destruct (distance (cluster_centroid c) (mpa_geometry m)) as [d|] eqn:Ed.
  - destruct (Qlt_le_dec d 0.05) as [Hlt | Hge].
    + intros [<- | []]. exists [], m, rest, d. simpl.
      repeat split; auto. intros m' d' [].
    + intros Hin. destruct (IH Hin) as (pre & m0 & post & d0 & -> & Hpre & H).
      exists (m :: pre), m0, post, d0. split; [reflexivity|].
      split; [|exact H].
      intros m' d' [<- | Hin'] Hd'.
      * rewrite Ed in Hd'. injection Hd' as <-. exact Hge.
      * eapply Hpre; eauto.
  - intros Hin. destruct (IH Hin) as (pre & m0 & post & d0 & -> & Hpre & H).
    exists (m :: pre), m0, post, d0. split; [reflexivity|].
    split; [|exact H].
    intros m' d' [<- | Hin'] Hd'.
    + rewrite Ed in Hd'. discriminate.
    + eapply Hpre; eauto.
Qed.

(** C7, as amended.  A cluster is flagged if and only if some MPA boundary
    is closer than 0.05 degree; it is then flagged by exactly one record,
    whose risk score is [max(0, 1 - 20 d)] for the distance [d] to the first
    MPA, in the order of the MPA table, that is closer than 0.05 degree. *)
Theorem C7_first_qualifying_mpa :
  forall (c : cluster point) (mpas : list (mpa_row geometry)),
    (forall m d, In m mpas ->
       distance (cluster_centroid c) (mpa_geometry m) = Some d -> 0 <= d) ->
    cluster_id c <> (-1)%Z ->
    suspicious_clusters distance [c] mpas = scan_mpas distance c mpas /\
    ((exists m d, In m mpas /\
                  distance (cluster_centroid c) (mpa_geometry m) = Some d /\
                  d < 0.05)
     <-> scan_mpas distance c mpas <> []) /\
    (forall r : suspect,
       In r (scan_mpas distance c mpas) ->
       exists pre m post d,
         scan_mpas distance c mpas = [r] /\
         mpas = pre ++ m :: post /\
         (forall m' d', In m' pre ->
            distance (cluster_centroid c) (mpa_geometry m') = Some d' ->
            0.05 <= d') /\
         distance (cluster_centroid c) (mpa_geometry m) = Some d /\
         d < 0.05 /\
         near_mpa r = mpa_label m /\
         risk_score r == Qmax 0 (1 - 20 * d)).
Proof.
  intros c mpas Hnonneg Hid. split; [|split].
  - unfold suspicious_clusters. simpl.
    destruct (Z.eqb_spec (cluster_id c) (-1)) as [E | _]; [contradiction|].
    apply app_nil_r.
  - apply scan_mpas_flagged_iff.
  - intros r Hr.
    destruct (scan_mpas_first_qualifying c mpas r Hr)
      as (pre & m & post & d & Hsplit & Hpre & Hd & Hlt & Hone & _ & Hname
          & Hscore).
    exists pre, m, post, d. repeat split; try assumption.
    rewrite Hscore. apply score_in_range; [|exact Hlt].
    apply (Hnonneg m d); [|exact Hd].
    rewrite Hsplit. apply in_or_app. right. left. reflexivity.
Qed.

End ProximityFacts.

Section ProximityExamplesFacts.
Import Proximity ProximityExamples.
Local Open Scope Q_scope.

Lemma ex_distances_nonneg :
  forall m d, In m ex_mpas ->
    ex_distance (cluster_centroid ex_cluster) (mpa_geometry m) = Some d ->
    0 <= d.
Proof.
  intros m d [<- | [<- | []]] H; injection H as <-; discriminate.
Defined.

Lemma C7_witness :
  exists r : suspect,
    suspicious_clusters ex_distance [ex_cluster] ex_mpas = [r] /\
    near_mpa r = "Pelagos"%string /\
    risk_score r == 0.2.
Proof.
  destruct (C7_first_qualifying_mpa unit Q ex_distance ex_cluster ex_mpas
              ex_distances_nonneg ltac:(discriminate))
    as (Htop & _ & _).
  eexists. split; [rewrite Htop; reflexivity|].
  split; reflexivity.
Defined.

(** C7 as stated fails: with a first MPA 0.04 away and a second one 0.01
    away, the record is scored from 0.04 (score 0.2), not from the nearest
    distance 0.01 (score 0.8). *)
Lemma C7_counterexample :
  ~ scored_by_nearest ex_distance ex_cluster ex_mpas.
Proof.
  intros H.
  destruct (H _ (or_introl eq_refl)) as (d & Hd & Hs).
  vm_compute in Hd. injection Hd as <-.
  vm_compute in Hs. discriminate.
Qed.

End ProximityExamplesFacts.

Section ModelFacts.
Import Models.
Context {sk : Sklearn}.


Lemma keeps_flag_raise {A : Type} (e : error) : keeps_flag (@raise _ A e).
Proof. intros self. reflexivity. Qed.
















End ModelFacts.

Section ModelExampleFacts.
Local Existing Instance Models.toy_sklearn.


End ModelExampleFacts.

Section CurrentFacts.
Import Currents.
Local Open Scope R_scope.

Lemma py_mod_range (a m : R) :
  0 < m -> 0 <= py_mod a m < m.
Proof.
  intros Hm. unfold py_mod.
  destruct (base_Int_part (a / m)) as [Hlo Hhi].
  set (k := IZR (Int_part (a / m))) in *.
  assert (Ha : a = a / m * m) by (field; lra).
  split; nra.
Qed.

(** On [(180, 540]] the remainder modulo 360 removes at most one turn. *)
Lemma py_mod_360 (d : R) :
  -180 < d <= 180 ->
  py_mod (d + 360) 360 = d + 360 \/ py_mod (d + 360) 360 = d.
Proof.
  intros [Hlo Hhi]. unfold py_mod.
  destruct (base_Int_part ((d + 360) / 360)) as [Hk1 Hk2].
  set (k := Int_part ((d + 360) / 360)) in *.
  assert (Hq : (d + 360) / 360 = d / 360 + 1) by (field; lra).
  rewrite Hq in Hk1, Hk2.
  assert (Hk0 : (0 <= k)%Z).
  { apply Z.lt_succ_r. apply lt_IZR. rewrite succ_IZR. lra. }
  assert (Hk3 : (k < 2)%Z).
  { apply lt_IZR. lra. }
  assert (Hk : k = 0%Z \/ k = 1%Z) by lia.
  destruct Hk as [-> | ->]; [left | right]; simpl; lra.
Qed.

Lemma atan_nonpos (z : R) : z <= 0 -> atan z <= 0.
Proof.
  intros [Hz | ->]; [|rewrite atan_0; lra].
  left. rewrite <- atan_0. now apply atan_increasing.
Qed.

Lemma atan_pos (z : R) : 0 < z -> 0 < atan z.
Proof. intros Hz. rewrite <- atan_0. now apply atan_increasing. Qed.

Lemma arctan2_range (y x : R) : - PI < arctan2 y x <= PI.
Proof.
  pose proof PI_RGT_0 as Hpi. unfold arctan2.
  destruct (Rlt_dec 0 x) as [Hx | Hx].
  - pose proof (atan_bound (y / x)). lra.
  - destruct (Rlt_dec x 0) as [Hx' | Hx'].
    + destruct (Rle_dec 0 y) as [Hy | Hy].
      * pose proof (atan_bound (y / x)).
        assert (atan (y / x) <= 0).
        { apply atan_nonpos. unfold Rdiv.
          assert (/ x < 0) by now apply Rinv_lt_0_compat. nra. }
        lra.
      * pose proof (atan_bound (y / x)).
        assert (0 < atan (y / x)).
        { apply atan_pos. unfold Rdiv.
          assert (/ x < 0) by now apply Rinv_lt_0_compat. nra. }
        lra.
    + destruct (Rlt_dec 0 y); [lra|]. destruct (Rlt_dec y 0); lra.
Qed.

Lemma hypot_factor (x y : R) :
  x <> 0 -> sqrt (x ^ 2 + y ^ 2) = Rabs x * sqrt (1 + (y / x)²).
Proof.
  intros Hx.
  replace (x ^ 2 + y ^ 2) with (x² * (1 + (y / x)²))
    by (unfold Rsqr; field; exact Hx).
  rewrite sqrt_mult.
  - now rewrite sqrt_Rsqr_abs.
  - apply Rle_0_sqr.
  - pose proof (Rle_0_sqr (y / x)). lra.
Qed.

Lemma sqrt_one_plus_sqr_pos (z : R) : 0 < sqrt (1 + z²).
Proof. apply sqrt_lt_R0. pose proof (Rle_0_sqr z). lra. Qed.

(** [arctan2] returns a polar angle of the point. *)
Lemma arctan2_polar (y x : R) :
  x = sqrt (x ^ 2 + y ^ 2) * cos (arctan2 y x) /\
  y = sqrt (x ^ 2 + y ^ 2) * sin (arctan2 y x).
Proof.
  unfold arctan2.
  destruct (Rlt_dec 0 x) as [Hx | Hx].
  - rewrite hypot_factor by lra. rewrite Rabs_pos_eq by lra.
    rewrite cos_atan, sin_atan.
    pose proof (sqrt_one_plus_sqr_pos (y / x)) as Hs.
    split; field; lra.
  - destruct (Rlt_dec x 0) as [Hx' | Hx'].
    + rewrite hypot_factor by lra. rewrite Rabs_left by lra.
      pose proof (sqrt_one_plus_sqr_pos (y / x)) as Hs.
      destruct (Rle_dec 0 y) as [Hy | Hy].
      * rewrite neg_cos, neg_sin, cos_atan, sin_atan. split; field; lra.
      * rewrite cos_minus, sin_minus, cos_PI, sin_PI, cos_atan, sin_atan.
        split; field; lra.
    + assert (x = 0) by lra. subst x.
      replace (0 ^ 2 + y ^ 2) with (y²) by (unfold Rsqr; ring).
      rewrite sqrt_Rsqr_abs.
      destruct (Rlt_dec 0 y) as [Hy | Hy].
      * rewrite cos_PI2, sin_PI2, Rabs_pos_eq by lra. lra.
      * destruct (Rlt_dec y 0) as [Hy' | Hy'].
        -- rewrite cos_neg, sin_neg, cos_PI2, sin_PI2, Rabs_left by lra. lra.
        -- assert (y = 0) by lra. subst y. rewrite Rabs_R0. lra.
Qed.

(** The stored direction is a counterclockwise angle in [[0, 360)]. *)
Lemma direction_at_polar (u v : R) :
  0 <= direction_at u v < 360 /\
  counterclockwise_from_east u v (direction_at u v).
Proof.
  pose proof PI_RGT_0 as Hpi.
  split; [apply py_mod_range; lra|].
  unfold counterclockwise_from_east, direction_at.
  destruct (arctan2_polar v u) as [Hu Hv].
  pose proof (arctan2_range v u) as [Hlo Hhi].
  set (a := arctan2 v u) in *.
  assert (Hd : -180 < a * 180 / PI <= 180).
  { split.
    - apply Rmult_lt_reg_r with PI; [lra|].
      unfold Rdiv. rewrite Rmult_assoc, Rinv_l by lra. lra.
    - apply Rmult_le_reg_r with PI; [lra|].
      unfold Rdiv. rewrite Rmult_assoc, Rinv_l by lra. lra. }
  destruct (py_mod_360 _ Hd) as [-> | ->].
  - replace ((a * 180 / PI + 360) * PI / 180) with (a + 2 * PI)
      by (field; lra).
    rewrite cos_plus, sin_plus, cos_2PI, sin_2PI.
    rewrite !Rmult_1_r, !Rmult_0_r, Rminus_0_r, Rplus_0_r. now split.
  - replace (a * 180 / PI * PI / 180) with a by (field; lra). now split.
Qed.

Lemma combine_nth_lt (u v : list R) (i : nat) :
  (i < length u)%nat -> (i < length v)%nat ->
  nth i (combine u v) (0, 0) = (nth i u 0, nth i v 0).
Proof.
  revert v i. induction u as [|a u IH]; intros [|b v] [|i]; simpl;
    try lia; try reflexivity.
  intros Hu Hv. apply IH; lia.
Qed.

Lemma calculate_current_speed_cells (u v s d : list R) (i : nat) :
  calculate_current_speed (Some (u, v)) = Some (s, d) ->
  (i < length u)%nat -> (i < length v)%nat ->
  nth i s 0 = speed_at (nth i u 0) (nth i v 0) /\
  nth i d 0 = direction_at (nth i u 0) (nth i v 0).
Proof.
  intros H Hu Hv. simpl in H. injection H as <- <-.
  assert (Hlen : (i < length (combine u v))%nat)
    by (rewrite length_combine; lia).
  split.
  - rewrite (nth_indep _ 0 (speed_at (fst (0, 0)) (snd (0, 0))))
      by (now rewrite length_map).
    rewrite (map_nth (fun c => speed_at (fst c) (snd c))).
    now rewrite combine_nth_lt.
  - rewrite (nth_indep _ 0 (direction_at (fst (0, 0)) (snd (0, 0))))
      by (now rewrite length_map).
    rewrite (map_nth (fun c => direction_at (fst c) (snd c))).
    now rewrite combine_nth_lt.
Qed.

(** C6, as amended.  At every cell the stored speed is [sqrt (u² + v²)]
    and the stored direction is the angle of [(u, v)] in degrees measured
    counterclockwise from east, normalized into [[0, 360)]. *)
Theorem C6_speed_and_direction :
  forall u v : list R,
    exists s d : list R,
      calculate_current_speed (Some (u, v)) = Some (s, d) /\
      forall i : nat,
        (i < length u)%nat -> (i < length v)%nat ->
        nth i s 0 = sqrt ((nth i u 0) ^ 2 + (nth i v 0) ^ 2) /\
        0 <= nth i d 0 < 360 /\
        counterclockwise_from_east (nth i u 0) (nth i v 0) (nth i d 0).
Proof.
  intros u v. eexists _, _. split; [reflexivity|].
  intros i Hu Hv.
  destruct (calculate_current_speed_cells u v _ _ i eq_refl Hu Hv) as [-> ->].
  split; [reflexivity|]. apply direction_at_polar.
Qed.

Lemma C6_witness :
  0 <= direction_at 0 1 < 360 /\
  counterclockwise_from_east 0 1 (direction_at 0 1).
Proof.
  destruct (C6_speed_and_direction [0] [1]) as (s & d & Heq & Hcells).
  injection Heq as <- <-.
  destruct (Hcells 0%nat (le_n 1) (le_n 1)) as (_ & Hrange & Hccw).
  split; [exact Hrange | exact Hccw].
Defined.

(** A current flowing due north is stored with direction 90. *)
Lemma direction_at_north : direction_at 0 1 = 90.
Proof.
  pose proof PI_RGT_0 as Hpi.
  destruct (direction_at_polar 0 1) as [Hrange _].
  unfold direction_at in *. unfold arctan2 in *.
  destruct (Rlt_dec 0 0) as [H | _]; [lra|].
  destruct (Rlt_dec 0 1) as [_ | H]; [|lra].
  replace (PI / 2 * 180 / PI) with 90 in * by (field; lra).
  destruct (py_mod_360 90 ltac:(lra)) as [E | E]; rewrite E in *; lra.
Qed.

(** C6 as stated fails: for a current flowing due north, [(u, v) = (0, 1)],
    the stored direction is 90, which is the counterclockwise angle from
    east; the clockwise angle would be 270. *)
Lemma C6_counterexample :
  exists s d : list R,
    calculate_current_speed (Some ([0], [1])) = Some (s, d) /\
    nth 0 d 0 = 90 /\
    ~ clockwise_from_east (nth 0 [0] 0) (nth 0 [1] 0) (nth 0 d 0).
Proof.
  eexists _, _. split; [reflexivity|]. simpl.
  split; [exact direction_at_north|].
  intros [_ Hcw].
  destruct (direction_at_polar 0 1) as [_ [_ Hccw]]. lra.
Qed.

End CurrentFacts.

Section RiskFacts.
Import Floats Risk.
Local Open Scope Q_scope.

Lemma Qltb_true (x y : Q) : Qltb x y = true <-> x < y.
Proof.
  unfold Qltb. rewrite Qlt_alt. destruct (x ?= y); split; congruence.
Qed.

Lemma Qltb_false (x y : Q) : Qltb x y = false <-> y <= x.
Proof.
  rewrite <- not_true_iff_false, Qltb_true. split.
  - apply Qnot_lt_le.
  - apply Qle_not_lt.
Qed.

Lemma qmin2_spec (a b : Q) :
  (qmin2 a b = a \/ qmin2 a b = b) /\ qmin2 a b <= a /\ qmin2 a b <= b.
Proof.
  unfold qmin2. destruct (Qltb b a) eqn:E.
  - apply Qltb_true in E. repeat split; auto; lra.
  - apply Qltb_false in E. repeat split; auto; lra.
Qed.

Lemma qmax2_spec (a b : Q) :
  (qmax2 a b = a \/ qmax2 a b = b) /\ a <= qmax2 a b /\ b <= qmax2 a b.
Proof.
  unfold qmax2. destruct (Qltb a b) eqn:E.
  - apply Qltb_true in E. repeat split; auto; lra.
  - apply Qltb_false in E. repeat split; auto; lra.
Qed.

Lemma fold_min_spec (r : list Q) (x : Q) :
  In (fold_left qmin2 r x) (x :: r) /\
  forall y, In y (x :: r) -> fold_left qmin2 r x <= y.
Proof.
  revert x. induction r as [|a r IH]; intros x; simpl.
  - split; [now left|]. intros y [<- | []]. lra.
  - destruct (IH (qmin2 x a)) as [Hin Hle].
    destruct (qmin2_spec x a) as ([E | E] & Hx & Ha).
    + split.
      * destruct Hin as [H | H]; [left; congruence | right; now right].
      * intros y [<- | [<- | Hy]].
        -- specialize (Hle _ (or_introl eq_refl)). lra.
        -- specialize (Hle _ (or_introl eq_refl)). lra.
        -- apply Hle. now right.
    + split.
      * destruct Hin as [H | H]; [right; left; congruence | right; now right].
      * intros y [<- | [<- | Hy]].
        -- specialize (Hle _ (or_introl eq_refl)). lra.
        -- specialize (Hle _ (or_introl eq_refl)). lra.
        -- apply Hle. now right.
Qed.

Lemma fold_max_spec (r : list Q) (x : Q) :
  In (fold_left qmax2 r x) (x :: r) /\
  forall y, In y (x :: r) -> y <= fold_left qmax2 r x.
Proof.
  revert x. induction r as [|a r IH]; intros x; simpl.
  - split; [now left|]. intros y [<- | []]. lra.
  - destruct (IH (qmax2 x a)) as [Hin Hle].
    destruct (qmax2_spec x a) as ([E | E] & Hx & Ha).
    + split.
      * destruct Hin as [H | H]; [left; congruence | right; now right].
      * intros y [<- | [<- | Hy]].
        -- specialize (Hle _ (or_introl eq_refl)). lra.
        -- specialize (Hle _ (or_introl eq_refl)). lra.
        -- apply Hle. now right.
    + split.
      * destruct Hin as [H | H]; [right; left; congruence | right; now right].
      * intros y [<- | [<- | Hy]].
        -- specialize (Hle _ (or_introl eq_refl)). lra.
        -- specialize (Hle _ (or_introl eq_refl)). lra.
        -- apply Hle. now right.
Qed.

(** [list_min] and [list_max] are the least and the greatest cell. *)
Lemma list_min_spec (f : list Q) :
  f <> [] -> In (list_min f) f /\ forall y, In y f -> list_min f <= y.
Proof. destruct f as [|x r]; [congruence|]. intros _. apply fold_min_spec. Qed.

Lemma list_max_spec (f : list Q) :
  f <> [] -> In (list_max f) f /\ forall y, In y f -> y <= list_max f.
Proof. destruct f as [|x r]; [congruence|]. intros _. apply fold_max_spec. Qed.

Lemma filter_finite (qs : list Q) :
  filter (fun c => negb (is_nan c)) (finite_field qs) = finite_field qs.
Proof.
  induction qs as [|x qs IH]; simpl; [reflexivity|]. now rewrite IH.
Qed.

Lemma fold_fmin2_finite (r : list Q) (x : Q) :
  fold_left fmin2 (finite_field r) (Fin x) = Fin (fold_left qmin2 r x).
Proof.
  revert x. induction r as [|a r IH]; intros x; simpl; [reflexivity|].
  rewrite <- IH. f_equal. unfold fmin2, qmin2. simpl.
  destruct (Qltb a x); reflexivity.
Qed.

Lemma fold_fmax2_finite (r : list Q) (x : Q) :
  fold_left fmax2 (finite_field r) (Fin x) = Fin (fold_left qmax2 r x).
Proof.
  revert x. induction r as [|a r IH]; intros x; simpl; [reflexivity|].
  rewrite <- IH. f_equal. unfold fmax2, qmax2. simpl.
  destruct (Qltb x a); reflexivity.
Qed.

Lemma field_min_finite (qs : list Q) :
  qs <> [] -> field_min (finite_field qs) = Some (Fin (list_min qs)).
Proof.
  destruct qs as [|x r]; [congruence|]. intros _.
  unfold field_min, reduce_skipna.
  rewrite filter_finite. simpl. now rewrite fold_fmin2_finite.
Qed.

Lemma field_max_finite (qs : list Q) :
  qs <> [] -> field_max (finite_field qs) = Some (Fin (list_max qs)).
Proof.
  destruct qs as [|x r]; [congruence|]. intros _.
  unfold field_max, reduce_skipna.
  rewrite filter_finite. simpl. now rewrite fold_fmax2_finite.
Qed.

(** What the normalization computes on a field of finite numbers. *)
Lemma minmax_normalize_finite (qs : list Q) :
  qs <> [] ->
  minmax_normalize (finite_field qs)
  = Some (if Qltb (list_min qs) (list_max qs)
          then map (fun x => Fin ((x - list_min qs)
                                  / (list_max qs - list_min qs))) qs
          else map (fun x => Fin (x * 0)) qs).
Proof.
  intros Hne. unfold minmax_normalize.
  rewrite (field_min_finite qs Hne), (field_max_finite qs Hne). simpl.
  destruct (Qltb (list_min qs) (list_max qs)) eqn:E; f_equal.
  - apply Qltb_true in E. unfold finite_field. rewrite map_map.
    apply map_ext. intros x. simpl.
    destruct (Qeq_bool (list_max qs + - list_min qs) 0) eqn:Ez;
      [|reflexivity].
    apply Qeq_bool_eq in Ez. lra.
  - unfold finite_field. rewrite map_map. reflexivity.
Qed.

Lemma spec_minmax_range (f : list Q) (x : Q) :
  In x f -> 0 <= spec_minmax f x <= 1.
Proof.
  intros Hx. assert (Hne : f <> []) by (intros ->; contradiction).
  destruct (list_min_spec f Hne) as [_ Hmin].
  destruct (list_max_spec f Hne) as [_ Hmax].
  specialize (Hmin x Hx). specialize (Hmax x Hx).
  unfold spec_minmax. destruct (Qltb (list_min f) (list_max f)) eqn:E.
  - apply Qltb_true in E. split.
    + apply Qle_shift_div_l; lra.
    + apply Qle_shift_div_r; lra.
  - lra.
Qed.

Lemma minmax_normalize_fin_grid (qs : list Q) :
  qs <> [] ->
  exists out,
    minmax_normalize (finite_field qs) = Some out /\
    fin_grid (length qs) (fun i => spec_minmax qs (nth i qs 0)) out.
Proof.
  intros Hne. eexists. split; [apply (minmax_normalize_finite qs Hne)|].
  unfold spec_minmax.
  destruct (Qltb (list_min qs) (list_max qs)); split;
    try (now rewrite length_map); intros i Hi;
    rewrite nth_error_map, (nth_error_nth' qs 0 Hi); simpl;
    eexists; (split; [reflexivity|]); ring.
Qed.



(** *** Finite grids under the array operations *)

Lemma fin_grid_ext (n : nat) (F G : nat -> Q) (g : field) :
  (forall i, (i < n)%nat -> F i == G i) -> fin_grid n F g -> fin_grid n G g.
Proof.
  intros HFG [Hlen Hc]. split; [exact Hlen|]. intros i Hi.
  destruct (Hc i Hi) as (q & Hq & Heq). exists q. split; [exact Hq|].
  rewrite Heq. now apply HFG.
Qed.

Lemma fin_grid_scale (n : nat) (F : nat -> Q) (g : field) (w : Q) :
  fin_grid n F g ->
  fin_grid n (fun i => F i * w) (map (fun c => fmul c (Fin w)) g).
Proof.
  intros [Hlen Hc]. split; [now rewrite length_map|]. intros i Hi.
  destruct (Hc i Hi) as (q & Hq & Heq).
  rewrite nth_error_map, Hq. simpl. eexists. split; [reflexivity|].
  now rewrite Heq.
Qed.

Lemma fin_grid_div (n : nat) (F : nat -> Q) (g : field) (w : Q) :
  ~ w == 0 ->
  fin_grid n F g ->
  fin_grid n (fun i => F i / w) (map (fun c => fdiv c (Fin w)) g).
Proof.
  intros Hw [Hlen Hc]. split; [now rewrite length_map|]. intros i Hi.
  destruct (Hc i Hi) as (q & Hq & Heq).
  rewrite nth_error_map, Hq. simpl.
  destruct (Qeq_bool w 0) eqn:E; [apply Qeq_bool_eq in E; contradiction|].
  eexists. split; [reflexivity|]. now rewrite Heq.
Qed.

Lemma fin_grid_add_scalar (n : nat) (F : nat -> Q) (g : field) (a : Q) :
  fin_grid n F g ->
  fin_grid n (fun i => a + F i) (map (fadd (Fin a)) g).
Proof.
  intros [Hlen Hc]. split; [now rewrite length_map|]. intros i Hi.
  destruct (Hc i Hi) as (q & Hq & Heq).
  rewrite nth_error_map, Hq. simpl. eexists. split; [reflexivity|].
  now rewrite Heq.
Qed.

Lemma zip_with_length (f : xfloat Q -> xfloat Q -> xfloat Q) (g h : field) :
  length (zip_with f g h) = Nat.min (length g) (length h).
Proof.
  revert h. induction g as [|x g IH]; intros [|y h]; simpl; auto.
Qed.

Lemma zip_with_nth_error (f : xfloat Q -> xfloat Q -> xfloat Q)
    (g h : field) (i : nat) (a b : xfloat Q) :
  nth_error g i = Some a -> nth_error h i = Some b ->
  nth_error (zip_with f g h) i = Some (f a b).
Proof.
  revert h i. induction g as [|x g IH]; intros [|y h] [|i]; simpl;
    try discriminate.
  - now intros [= ->] [= ->].
  - apply IH.
Qed.

Lemma fin_grid_zip_add (n : nat) (F G : nat -> Q) (g h : field) :
  fin_grid n F g -> fin_grid n G h ->
  fin_grid n (fun i => F i + G i) (zip_with fadd g h).
Proof.
  intros [Hlg Hg] [Hlh Hh]. split.
  - rewrite zip_with_length. lia.
  - intros i Hi.
    destruct (Hg i Hi) as (p & Hp & Hpe). destruct (Hh i Hi) as (q & Hq & Hqe).
    rewrite (zip_with_nth_error fadd g h i _ _ Hp Hq). simpl.
    eexists. split; [reflexivity|]. now rewrite Hpe, Hqe.
Qed.

Lemma py_sum_from (xs : list Q) (a : Q) :
  fold_left Qplus xs a == a + qsum xs.
Proof.
  revert a. induction xs as [|x xs IH]; intros a; simpl; [ring|].
  rewrite IH. ring.
Qed.

Lemma py_sum_qsum (xs : list Q) : py_sum xs == qsum xs.
Proof. unfold py_sum. rewrite py_sum_from. ring. Qed.

Lemma weights_get_pos (key : string) : 0 < weights_get key.
Proof.
  unfold weights_get.
  repeat match goal with |- context [if ?b then _ else _] => destruct b end;
    reflexivity.
Qed.

Lemma normalize_all_finite (factors : list (string * list Q)) :
  (forall kf, In kf factors -> snd kf <> []) ->
  exists normalized,
    normalize_all (finite_components factors) = Some normalized /\
    Forall2 normalized_as factors normalized.
Proof.
  induction factors as [|[k f] factors IH]; intros Hne.
  - exists []. split; [reflexivity | constructor].
  - destruct IH as (ns & Hns & Hrel).
    { intros kf Hin. apply Hne. now right. }
    destruct (minmax_normalize_fin_grid f) as (out & Hout & Hgrid).
    { apply (Hne (k, f)). now left. }
    exists ((k, out) :: ns). split.
    + change (finite_components ((k, f) :: factors))
        with ((k, finite_field f) :: finite_components factors).
      cbn [normalize_all]. rewrite Hout, Hns. reflexivity.
    + constructor; [split; [reflexivity | exact Hgrid] | exact Hrel].
Qed.

(** *** The weighted sum *)

(** The sum of the terms, for any way [term] of turning a normalized cell
    of the factor [key] into its term, mirrored by [T] on numbers. *)
Lemma weighted_sum_grid (term : string -> xfloat Q -> xfloat Q)
    (T : string -> Q -> Q) (n : nat)
    (factors : list (string * list Q)) (normalized : list (string * field)) :
  (forall key F g, fin_grid n F g ->
     fin_grid n (fun i => T key (F i)) (map (term key) g)) ->
  Forall2 normalized_as factors normalized ->
  (forall kf, In kf factors -> length (snd kf) = n) ->
  forall (acc : field) (A : nat -> Q),
    fin_grid n A acc ->
    exists g,
      fold_left (arr_op fadd)
        (map (fun kn => Grid (map (term (fst kn)) (snd kn))) normalized)
        (Grid acc) = Grid g /\
      fin_grid n
        (fun i => A i + qsum (map (fun kf => T (fst kf)
                                    (spec_minmax (snd kf) (nth i (snd kf) 0)))
                                  factors)) g.
Proof.
  intros Hterm.
  induction 1 as [|kf kn fs ns [Hkey Hgrid] Hrest IH]; intros Hlen acc A Hacc.
  - exists acc. split; [reflexivity|].
    apply (fin_grid_ext n A); [|exact Hacc]. intros i _. simpl. ring.
  - rewrite (Hlen kf (or_introl eq_refl)) in Hgrid.
    destruct (IH (fun kf' H => Hlen kf' (or_intror H))
                 (zip_with fadd acc (map (term (fst kn)) (snd kn)))
                 (fun i => A i + T (fst kn)
                                   (spec_minmax (snd kf) (nth i (snd kf) 0))))
      as (g & Hg & Hgg).
    { apply fin_grid_zip_add; [exact Hacc|]. now apply Hterm. }
    exists g. split; [exact Hg|].
    refine (fin_grid_ext n _ _ g _ Hgg).
    intros i _. simpl. rewrite Hkey. ring.
Qed.

Lemma weighted_sum_from_zero (term : string -> xfloat Q -> xfloat Q)
    (T : string -> Q -> Q) (n : nat)
    (factors : list (string * list Q)) (normalized : list (string * field)) :
  (forall key F g, fin_grid n F g ->
     fin_grid n (fun i => T key (F i)) (map (term key) g)) ->
  factors <> [] ->
  Forall2 normalized_as factors normalized ->
  (forall kf, In kf factors -> length (snd kf) = n) ->
  exists g,
    py_sum_arrays
      (map (fun kn => Grid (map (term (fst kn)) (snd kn))) normalized)
    = Grid g /\
    fin_grid n
      (fun i => qsum (map (fun kf => T (fst kf)
                            (spec_minmax (snd kf) (nth i (snd kf) 0)))
                          factors)) g.
Proof.
  intros Hterm Hne Hrel Hlen.
  destruct Hrel as [|kf kn fs ns [Hkey Hgrid] Hrest]; [congruence|].
  rewrite (Hlen kf (or_introl eq_refl)) in Hgrid.
  destruct (weighted_sum_grid term T n fs ns Hterm Hrest
              (fun kf' H => Hlen kf' (or_intror H))
              (map (fadd (Fin 0)) (map (term (fst kn)) (snd kn)))
              (fun i => 0 + T (fst kn)
                              (spec_minmax (snd kf) (nth i (snd kf) 0))))
    as (g & Hg & Hgg).
  { apply fin_grid_add_scalar. now apply Hterm. }
  exists g. split; [exact Hg|].
  refine (fin_grid_ext n _ _ g _ Hgg).
  intros i _. simpl. rewrite Hkey. ring.
Qed.

Lemma Forall2_keys (factors : list (string * list Q))
    (normalized : list (string * field)) (w : string -> Q) :
  Forall2 normalized_as factors normalized ->
  map (fun kn => w (fst kn)) normalized = map (fun kf => w (fst kf)) factors.
Proof.
  induction 1 as [|kf kn fs ns [Hkey _] _ IH]; simpl; [reflexivity|].
  now rewrite Hkey, IH.
Qed.

Lemma weighted_sums_bounds (w : string -> Q)
    (factors : list (string * list Q)) (i : nat) :
  (forall kf, In kf factors -> 0 < w (fst kf)) ->
  (forall kf, In kf factors -> (i < length (snd kf))%nat) ->
  0 <= qsum (map (fun kf => w (fst kf)
                     * spec_minmax (snd kf) (nth i (snd kf) 0)) factors)
    <= qsum (map (fun kf => w (fst kf)) factors).
Proof.
  induction factors as [|kf fs IH]; intros Hw Hi; simpl; [lra|].
  specialize (IH (fun kf' H => Hw kf' (or_intror H))
                 (fun kf' H => Hi kf' (or_intror H))).
  pose proof (Hw kf (or_introl eq_refl)) as Hk.
  pose proof (spec_minmax_range (snd kf) (nth i (snd kf) 0)
                (nth_In _ _ (Hi kf (or_introl eq_refl)))) as Hn.
  nra.
Qed.

Lemma weights_sum_pos (w : string -> Q) (factors : list (string * list Q)) :
  (forall kf, In kf factors -> 0 < w (fst kf)) -> factors <> [] ->
  0 < qsum (map (fun kf => w (fst kf)) factors).
Proof.
  intros Hw Hne. destruct factors as [|kf fs]; [congruence|]. simpl.
  assert (H : 0 <= qsum (map (fun kf => w (fst kf)) fs)).
  { assert (Hfs : forall kf', In kf' fs -> 0 < w (fst kf'))
      by (intros kf' H; apply Hw; now right).
    clear - Hfs. induction fs as [|a fs IH]; simpl; [lra|].
    pose proof (Hfs a (or_introl eq_refl)).
    specialize (IH (fun kf' H => Hfs kf' (or_intror H))). lra. }
  pose proof (Hw kf (or_introl eq_refl)). lra.
Qed.

(** The combined index always lies in [0, 1]. *)
Lemma spec_risk_index_range (w : string -> Q)
    (factors : list (string * list Q)) (i : nat) :
  (forall kf, In kf factors -> 0 < w (fst kf)) -> factors <> [] ->
  (forall kf, In kf factors -> (i < length (snd kf))%nat) ->
  0 <= spec_risk_index w factors i <= 1.
Proof.
  intros Hw Hne Hi. unfold spec_risk_index.
  pose proof (weighted_sums_bounds w factors i Hw Hi) as [H0 H1].
  pose proof (weights_sum_pos w factors Hw Hne) as Hpos.
  split.
  - apply Qle_shift_div_l; [exact Hpos | lra].
  - apply Qle_shift_div_r; [exact Hpos | lra].
Qed.

(** The composer of process_data_script.py computes the index as the
    specification words it: on non-empty finite fields over one grid, each
    cell of the result is the weighted sum of the normalized factors
    divided by the sum of the weights of the factors present, a number in
    [0, 1]. *)
Lemma combine_risk_components_spec (factors : list (string * list Q))
    (n : nat) :
  factors <> [] -> (0 < n)%nat ->
  (forall kf, In kf factors -> length (snd kf) = n) ->
  exists g,
    combine_risk_components (finite_components factors) = Some (Grid g) /\
    fin_grid n (spec_risk_index weights_get factors) g /\
    forall i, (i < n)%nat -> 0 <= spec_risk_index weights_get factors i <= 1.
Proof.
  intros Hne Hn Hlen.
  destruct (normalize_all_finite factors) as (ns & Hns & Hrel).
  { intros kf Hin Hnil. specialize (Hlen kf Hin). rewrite Hnil in Hlen.
    simpl in Hlen. lia. }
  destruct (weighted_sum_from_zero
              (fun key c => fmul c (Fin (weights_get key)))
              (fun key x => x * weights_get key)
              n factors ns
              (fun key F g H => fin_grid_scale n F g (weights_get key) H)
              Hne Hrel Hlen)
    as (g & Hg & Hgg).
  assert (Hw : forall kf : string * list Q,
             In kf factors -> 0 < weights_get (fst kf))
    by (intros; apply weights_get_pos).
  pose proof (weights_sum_pos weights_get factors Hw Hne) as Hpos.
  exists (map (fun c => fdiv c
            (Fin (py_sum (map (fun kn => weights_get (fst kn)) ns)))) g).
  split; [|split].
  - unfold combine_risk_components.
    destruct factors as [|kf fs]; [congruence|].
    change (finite_components (kf :: fs))
      with ((fst kf, finite_field (snd kf)) :: finite_components fs) in *.
    rewrite Hns. unfold weighted_average.
    exact (f_equal
             (fun a => Some (arr_op fdiv a
                (Scalar (Fin (py_sum (map (fun kn : string * field =>
                                             weights_get (fst kn)) ns))))))
             Hg).
  - assert (Hden : py_sum (map (fun kn => weights_get (fst kn)) ns)
                   == qsum (map (fun kf => weights_get (fst kf)) factors)).
    { rewrite py_sum_qsum, (Forall2_keys factors ns weights_get Hrel).
      reflexivity. }
    apply (fin_grid_ext n
             (fun i => qsum (map (fun kf =>
                                    spec_minmax (snd kf) (nth i (snd kf) 0)
                                    * weights_get (fst kf)) factors)
                       / py_sum (map (fun kn => weights_get (fst kn)) ns))).
    + intros i _. unfold spec_risk_index. rewrite Hden.
      apply Qdiv_comp; [|reflexivity].
      clear. induction factors as [|kf fs IH]; simpl; [reflexivity|].
      rewrite IH. ring.
    + apply fin_grid_div; [|exact Hgg]. rewrite Hden. lra.
  - intros i Hi. apply spec_risk_index_range; [exact Hw | exact Hne |].
    intros kf Hin. now rewrite (Hlen kf Hin).
Qed.

Lemma risk_components_finite (sst trend : option (list Q))
    (zones : option (list bool)) :
  risk_components (finite_processed sst trend zones)
  = finite_components (derived_factors sst trend zones).
Proof.
  unfold risk_components, finite_processed, derived_factors,
    finite_components, finite_field. simpl.
  rewrite !map_app. apply f_equal2; [|apply f_equal2].
  - destruct sst as [a|]; simpl; [|reflexivity].
    now rewrite !map_map.
  - destruct trend as [a|]; simpl; [|reflexivity].
    rewrite !map_map.
    apply (f_equal (fun m : field => [("productivity"%string, m)])).
    apply map_ext. intros x. unfold flt. destruct (Qltb x 0); reflexivity.
  - destruct zones as [a|]; simpl; [|reflexivity].
    rewrite !map_map.
    apply (f_equal (fun m : field => [("frontal"%string, m)])).
    apply map_ext. intros [|]; reflexivity.
Qed.

(** [calculate_overfishing_risk_index] on finite processed data: with at
    least one of the three inputs present, all on one grid of [n > 0]
    cells, the stored index is the weighted average of the normalized
    factors present, in [0, 1]. *)
Lemma calculate_overfishing_risk_index_spec (sst trend : option (list Q))
    (zones : option (list bool)) (n : nat) :
  derived_factors sst trend zones <> [] -> (0 < n)%nat ->
  (forall f, sst = Some f -> length f = n) ->
  (forall f, trend = Some f -> length f = n) ->
  (forall z, zones = Some z -> length z = n) ->
  exists g,
    calculate_overfishing_risk_index (finite_processed sst trend zones)
    = Some (Grid g) /\
    fin_grid n
      (spec_risk_index weights_get (derived_factors sst trend zones)) g /\
    forall i, (i < n)%nat ->
      0 <= spec_risk_index weights_get (derived_factors sst trend zones) i
        <= 1.
Proof.
  intros Hne Hn Hs Ht Hz. unfold calculate_overfishing_risk_index.
  rewrite risk_components_finite.
  apply combine_risk_components_spec; [exact Hne | exact Hn |].
  intros kf Hin. unfold derived_factors in Hin.
  repeat (apply in_app_or in Hin; destruct Hin as [Hin | Hin]).
  - destruct sst as [a|]; simpl in Hin; [|contradiction].
    destruct Hin as [<- | []]. simpl. rewrite length_map. now apply Hs.
  - destruct trend as [a|]; simpl in Hin; [|contradiction].
    destruct Hin as [<- | []]. simpl. rewrite length_map. now apply Ht.
  - destruct zones as [a|]; simpl in Hin; [|contradiction].
    destruct Hin as [<- | []]. simpl. rewrite length_map. now apply Hz.
Qed.

(** *** The multifactor composer *)

Lemma multifactor_components_finite (env : option (list Q)) (fishing : bool)
    (hab conn : option (list Q)) (mpa : bool) :
  multifactor_components (finite_multifactor env fishing hab conn mpa)
  = finite_components (multifactor_factors env hab conn).
Proof. destruct env, hab, conn; reflexivity. Qed.

Lemma multifactor_weights_lookup (env : option (list Q)) (fishing : bool)
    (hab conn : option (list Q)) (mpa : bool) (kf : string * list Q) :
  In kf (multifactor_factors env hab conn) ->
  weights_lookup
    (multifactor_weights (finite_multifactor env fishing hab conn mpa))
    (fst kf) = Some (multifactor_weight (fst kf)) /\
  0 < multifactor_weight (fst kf).
Proof.
  destruct env, hab, conn, fishing, mpa; simpl;
    intuition (subst; split; reflexivity).
Qed.

Lemma multifactor_total_weight (env : option (list Q)) (fishing : bool)
    (hab conn : option (list Q)) (mpa : bool) :
  py_sum (map snd (multifactor_weights
                     (finite_multifactor env fishing hab conn mpa)))
  == qsum (map (fun kf => multifactor_weight (fst kf))
               (multifactor_factors env hab conn))
     + fieldless_weight fishing mpa.
Proof. destruct env, hab, conn, fishing, mpa; reflexivity. Qed.

Lemma multifactor_terms_finite (weights : list (string * Q)) (total : Q)
    (factors : list (string * list Q)) (normalized : list (string * field)) :
  Forall2 normalized_as factors normalized ->
  (forall kf, In kf factors ->
     weights_lookup weights (fst kf) = Some (multifactor_weight (fst kf))) ->
  multifactor_terms weights total normalized
  = Some (map (fun kn : string * field =>
                 Grid (map (fun c => fdiv (fmul c (Fin (multifactor_weight
                                                          (fst kn))))
                                          (Fin total)) (snd kn)))
              normalized).
Proof.
  induction 1 as [|kf [k g] fs ns [Hkey _] _ IH]; intros Hw;
    [reflexivity|].
  simpl in Hkey. subst k. cbn [multifactor_terms].
  rewrite (Hw kf (or_introl eq_refl)).
  rewrite (IH (fun kf' H => Hw kf' (or_intror H))).
  cbn [map arr_op fst snd]. now rewrite map_map.
Qed.

Lemma fin_grid_term (n : nat) (F : nat -> Q) (g : field) (w total : Q) :
  ~ total == 0 ->
  fin_grid n F g ->
  fin_grid n (fun i => F i * w / total)
           (map (fun c => fdiv (fmul c (Fin w)) (Fin total)) g).
Proof.
  intros Ht Hg.
  rewrite <- (map_map (fun c => fmul c (Fin w)) (fun c => fdiv c (Fin total))).
  apply (fin_grid_div n (fun i => F i * w)); [exact Ht|].
  now apply fin_grid_scale.
Qed.

Lemma qsum_scaled (w : string -> Q) (factors : list (string * list Q))
    (i : nat) (total : Q) :
  ~ total == 0 ->
  qsum (map (fun kf => spec_minmax (snd kf) (nth i (snd kf) 0) * w (fst kf)
                       / total) factors)
  == qsum (map (fun kf => w (fst kf)
                          * spec_minmax (snd kf) (nth i (snd kf) 0)) factors)
     / total.
Proof.
  intros Ht. induction factors as [|kf fs IH]; simpl.
  - field. exact Ht.
  - rewrite IH. field. exact Ht.
Qed.

(** What [calculate_multifactor_risk_index] stores, on non-empty finite
    fields over one grid: the weighted sum of the normalized factors
    divided by the sum of all the weights it declared, those of fishing
    pressure and of the protection gap included.  That is the index of the
    specification scaled down by the share of the weights that belong to
    factors present; it lies in [0, 1]. *)
Lemma calculate_multifactor_risk_index_spec (env : option (list Q))
    (fishing : bool) (hab conn : option (list Q)) (mpa : bool) (n : nat) :
  multifactor_factors env hab conn <> [] -> (0 < n)%nat ->
  (forall kf, In kf (multifactor_factors env hab conn) ->
     length (snd kf) = n) ->
  exists g,
    calculate_multifactor_risk_index
      (finite_multifactor env fishing hab conn mpa) = Some (Grid g) /\
    fin_grid n
      (fun i =>
         spec_risk_index multifactor_weight
           (multifactor_factors env hab conn) i
         * (qsum (map (fun kf => multifactor_weight (fst kf))
                      (multifactor_factors env hab conn))
            / (qsum (map (fun kf => multifactor_weight (fst kf))
                         (multifactor_factors env hab conn))
               + fieldless_weight fishing mpa))) g /\
    forall i, (i < n)%nat ->
      0 <= spec_risk_index multifactor_weight
             (multifactor_factors env hab conn) i
           * (qsum (map (fun kf => multifactor_weight (fst kf))
                        (multifactor_factors env hab conn))
              / (qsum (map (fun kf => multifactor_weight (fst kf))
                           (multifactor_factors env hab conn))
                 + fieldless_weight fishing mpa)) <= 1.
Proof.
  intros Hne Hn Hlen.
  set (factors := multifactor_factors env hab conn) in *.
  set (inp := finite_multifactor env fishing hab conn mpa).
  set (present := qsum (map (fun kf => multifactor_weight (fst kf)) factors)).
  set (total := py_sum (map snd (multifactor_weights inp))).
  assert (Hw : forall kf, In kf factors -> 0 < multifactor_weight (fst kf)).
  { intros kf Hin.
    apply (multifactor_weights_lookup env fishing hab conn mpa kf Hin). }
  assert (Hpresent : 0 < present) by (apply weights_sum_pos; assumption).
  assert (Hextra : 0 <= fieldless_weight fishing mpa)
    by (destruct fishing, mpa; discriminate).
  assert (Htotal : total == present + fieldless_weight fishing mpa)
    by apply multifactor_total_weight.
  assert (Hnz : ~ total == 0) by lra.
  destruct (normalize_all_finite factors) as (ns & Hns & Hrel).
  { intros kf Hin Hnil. specialize (Hlen kf Hin). rewrite Hnil in Hlen.
    simpl in Hlen. lia. }
  destruct (weighted_sum_from_zero
              (fun key c => fdiv (fmul c (Fin (multifactor_weight key)))
                                 (Fin total))
              (fun key x => x * multifactor_weight key / total)
              n factors ns
              (fun key F g H =>
                 fin_grid_term n F g (multifactor_weight key) total Hnz H)
              Hne Hrel Hlen)
    as (g & Hg & Hgg).
  exists g. split; [|split].
  - unfold calculate_multifactor_risk_index.
    fold inp. unfold inp at 1.
    rewrite multifactor_components_finite. fold factors.
    destruct (finite_components factors) as [|c cs] eqn:Ec.
    { destruct factors; [congruence | discriminate]. }
    rewrite Hns. fold total.
    rewrite (multifactor_terms_finite _ total factors ns Hrel).
    + exact (f_equal Some Hg).
    + intros kf Hin.
      apply (multifactor_weights_lookup env fishing hab conn mpa kf Hin).
  - refine (fin_grid_ext n _ _ g _ Hgg).
    intros i _. cbv beta. rewrite (qsum_scaled _ _ _ _ Hnz).
    unfold spec_risk_index. fold present. rewrite Htotal.
    field. split; lra.
  - intros i Hi.
    assert (Hidx : forall kf, In kf factors -> (i < length (snd kf))%nat)
      by (intros kf Hin; now rewrite (Hlen kf Hin)).
    pose proof (spec_risk_index_range multifactor_weight factors i Hw Hne Hidx)
      as [Hs0 Hs1].
    assert (Hshare : 0 <= present / (present + fieldless_weight fishing mpa)
                     <= 1).
    { split.
      - apply Qle_shift_div_l; lra.
      - apply Qle_shift_div_r; lra. }
    nra.
Qed.

(** C1 at a failing input.  In [calculate_multifactor_risk_index], with
    temperature and fishing data loaded, the only factor field present is
    the environmental stress (weight 0.2), yet the sum is divided by
    0.2 + 0.3, the weight declared for fishing pressure included: the cell
    whose normalized stress is 1 gets the index 2/5, where the weighted sum
    divided by the weights of the factors present is 1. *)
Theorem C1_multifactor_divides_by_declared_weights :
  multifactor_components sst_and_fishing
  = finite_components [("environmental_stress"%string, [0; 1])] /\
  spec_risk_index multifactor_weight
    [("environmental_stress"%string, [0; 1])] 1 == 1 /\
  exists g,
    calculate_multifactor_risk_index sst_and_fishing = Some (Grid g) /\
    cell_is (Grid g) 1 (2 # 5) /\
    ~ cell_is (Grid g) 1
        (spec_risk_index multifactor_weight
           [("environmental_stress"%string, [0; 1])] 1).
Proof.
  split; [reflexivity|]. split; [reflexivity|].
  eexists. split; [vm_compute; reflexivity|]. split.
  - eexists. split; [reflexivity|]. reflexivity.
  - intros (q & Hq & Heq). vm_compute in Hq. injection Hq as <-.
    vm_compute in Heq. discriminate.
Qed.

End RiskFacts.

Section AnomalyFacts.
Import Floats Anomaly.
Local Open Scope R_scope.

Lemma rdiv_zero_zero : rdiv 0 0 = NaN.
Proof.
  unfold rdiv. destruct (Req_dec_T 0 0) as [_ | H]; [|now contradiction H].
  reflexivity.
Qed.

(** A division by zero never yields a finite number. *)
Lemma rdiv_by_zero (a : R) :
  rdiv a 0 = NaN \/ rdiv a 0 = PInf \/ rdiv a 0 = NInf.
Proof.
  unfold rdiv. destruct (Req_dec_T 0 0) as [_ | H]; [|now contradiction H].
  destruct (Req_dec_T a 0); [now left|].
  destruct (Rlt_dec 0 a); [right; now left | right; now right].
Qed.

Lemma rsum_squares_nonneg (xs : list R) (c : R) :
  0 <= rsum (map (fun x => (x - c) ^ 2) xs).
Proof.
  induction xs as [|b xs IH]; cbn [map rsum fold_right]; [lra|].
  pose proof (pow2_ge_0 (b - c)). unfold rsum in IH. lra.
Qed.

Lemma rsum_squares_zero (xs : list R) (c : R) :
  rsum (map (fun x => (x - c) ^ 2) xs) = 0 -> forall x, In x xs -> x = c.
Proof.
  induction xs as [|a xs IH]; cbn [map rsum fold_right]; [intros _ x []|].
  intros Hsum.
  pose proof (rsum_squares_nonneg xs c) as Hnn. unfold rsum in Hnn, IH.
  pose proof (pow2_ge_0 (a - c)) as Hsq.
  intros x [<- | Hx].
  - assert (Ha : (a - c) * (a - c) = 0)
      by (ring_simplify; ring_simplify in Hsum; lra).
    apply Rmult_integral in Ha. lra.
  - apply IH; [lra | exact Hx].
Qed.

(** A zero standard deviation means that the group is constant. *)
Lemma std_zero_constant (xs : list R) :
  std xs = 0 -> forall x, In x xs -> x = mean xs.
Proof.
  intros Hstd x Hx. unfold std in Hstd.
  destruct xs as [|a xs']; [contradiction|].
  set (xs := a :: xs') in *.
  assert (Hlen : 0 < INR (length xs)) by (apply lt_0_INR; simpl; lia).
  pose proof (rsum_squares_nonneg xs (mean xs)) as Hnn.
  assert (Hm : 0 <= mean (map (fun y => (y - mean xs) ^ 2) xs)).
  { unfold mean at 1. rewrite length_map.
    apply Rmult_le_pos; [exact Hnn|]. left. now apply Rinv_0_lt_compat. }
  apply sqrt_eq_0 in Hstd; [|exact Hm].
  unfold mean at 1 in Hstd. rewrite length_map in Hstd.
  apply (rsum_squares_zero xs (mean xs)); [|exact Hx].
  apply Rmult_eq_reg_r with (/ INR (length xs)).
  - rewrite Rmult_0_l. exact Hstd.
  - apply Rinv_neq_0_compat. lra.
Qed.

(** Wherever the climatological standard deviation of a time step's month
    is zero, its standardized anomaly is NaN. *)
Lemma sst_standardized_zero_std (series : list sample) (s : sample) :
  In s series ->
  sst_std series (month s) = 0 ->
  rdiv (value s - sst_climatology series (month s))
       (sst_std series (month s)) = NaN.
Proof.
  intros Hin Hstd. rewrite Hstd.
  assert (Hv : value s = sst_climatology series (month s)).
  { apply std_zero_constant; [exact Hstd|].
    unfold group. apply in_map. apply filter_In. split; [exact Hin|].
    apply Nat.eqb_refl. }
  rewrite <- Hv, Rminus_diag. apply rdiv_zero_zero.
Qed.

Lemma mean_singleton (v : R) : mean [v] = v.
Proof. unfold mean. simpl. lra. Qed.

Lemma std_singleton (v : R) : std [v] = 0.
Proof.
  unfold std. cbn [map]. rewrite !mean_singleton.
  replace ((v - v) ^ 2) with 0 by ring. apply sqrt_0.
Qed.

(** C5 at a failing input.  With one full seasonal cycle every month has a
    single sample, so every climatological standard deviation is zero, and
    the standardized anomaly is NaN at every time step, not zero. *)
Theorem C5_zero_std_gives_nan :
  Forall (fun s => sst_std one_year (month s) = 0) one_year /\
  sst_anomaly one_year = repeat 0 12 /\
  sst_standardized one_year = repeat NaN 12.
Proof.
  assert (Hstd : Forall (fun s => sst_std one_year (month s) = 0) one_year).
  { unfold one_year, sst_std.
    repeat (constructor; [cbn; apply std_singleton|]). constructor. }
  split; [exact Hstd|]. split.
  - unfold sst_anomaly, sst_climatology, one_year.
    cbn [map month value group filter Nat.eqb].
    rewrite !mean_singleton, !Rminus_diag. reflexivity.
  - unfold sst_standardized.
    assert (H : forall s, In s one_year ->
              rdiv (value s - sst_climatology one_year (month s))
                   (sst_std one_year (month s)) = NaN).
    { intros s Hs. apply sst_standardized_zero_std; [exact Hs|].
      rewrite Forall_forall in Hstd. now apply Hstd. }
    rewrite (map_ext_in _ (fun _ => NaN) one_year H). reflexivity.
Qed.

End AnomalyFacts.

(* ================================================================== *)
(** * Part III: further properties of the code                         *)
(* ================================================================== *)

Section ScenarioFacts.
Import Simulator Scenarios.
Local Open Scope R_scope.

(** The scenario a successful run builds. *)
Lemma simulate_expansion_ok (self : MPASimulator) (b p : R) (n : Z) :
  baseline_coverage self = Some b -> (0 <= n)%Z ->
  exists st sc,
    simulate_expansion self p n = Some (st, sc) /\
    st = {| baseline_coverage := Some b;
            scenarios := (p, sc) :: scenarios self |} /\
    expansion_percentage sc = p /\
    new_coverage sc = b + p /\
    years sc = years_array n /\
    stock_recovery sc = map (stock_at (rate p)) (years_array n) /\
    biodiversity_recovery sc = map (biodiversity_at (rate p)) (years_array n) /\
    economic_benefit_usd sc
    = map (fun s => s * spillover_multiplier * p * 1e6)
          (map (stock_at (rate p)) (years_array n)) /\
    final_stock_level sc = stock_at (rate p) (INR (Z.to_nat n)) /\
    final_biodiversity sc = biodiversity_at (rate p) (INR (Z.to_nat n)).
Proof.
  intros Hb Hn. unfold simulate_expansion. rewrite Hb.
  rewrite !last_entry_map, (last_entry_years n Hn). simpl.
  eexists _, _. split; [reflexivity|]. repeat split; reflexivity.
Qed.

(** When [simulate_expansion] yields no result. *)
Lemma simulate_expansion_none_iff :
  forall (self : MPASimulator) (p : R) (nyears : Z),
    simulate_expansion self p nyears = None
    <-> (baseline_coverage self = None \/ (nyears < 0)%Z).
Proof.
  intros self p n. split.
  - intros Hnone. destruct (baseline_coverage self) as [b|] eqn:Hb;
      [|now left]. right.
    destruct (Z.lt_ge_cases n 0) as [Hlt | Hge]; [exact Hlt|].
    destruct (simulate_expansion_ok self b p n Hb Hge) as (st & sc & H & _).
    congruence.
  - intros [Hb | Hn]; unfold simulate_expansion.
    + now rewrite Hb.
    + destruct (baseline_coverage self); [|reflexivity].
      unfold years_array. replace (Z.to_nat (n + 1)) with 0%nat by lia.
      reflexivity.
Qed.

(** X1.  [simulate_expansion] raises exactly when no baseline was loaded
    or the number of years is negative. *)
Theorem simulate_expansion_raises_iff :
  forall (self : MPASimulator) (p : R) (nyears : Z),
    simulate_expansion self p nyears = None
    <-> (baseline_coverage self = None \/ (nyears < 0)%Z).
Proof. exact simulate_expansion_none_iff. Qed.

Lemma biodiversity_le_stock (r t : R) :
  0 <= r -> 0 <= t -> biodiversity_at r t <= stock_at r t.
Proof.
  intros Hr Ht. unfold biodiversity_at, stock_at.
  apply logistic_antitone; [apply exp_pos|].
  apply exp_le_mono. nra.
Qed.

Lemma biodiversity_above_initial (r t : R) :
  0 <= r -> 0 <= t -> 0.6 <= biodiversity_at r t.
Proof.
  intros Hr Ht.
  replace (biodiversity_at r t) with (stock_at (r * 0.8) t).
  - apply stock_at_above_initial; lra.
  - unfold biodiversity_at, stock_at.
    replace (- (r * 0.8) * t) with (- r * 0.8 * t) by ring. reflexivity.
Qed.

Lemma curve_entry (f : R -> R) (n : Z) (t : nat) :
  (Z.of_nat t <= n)%Z -> nth t (map f (years_array n)) 0 = f (INR t).
Proof.
  intros Ht. rewrite (nth_indep _ 0 (f 0)).
  - rewrite map_nth. f_equal. apply years_array_nth. lia.
  - rewrite length_map, years_array_length. lia.
Qed.

(** X2.  For a percentage [p >= 0] the biodiversity curve starts with the
    stock curve at 0.6 and then stays between 0.6 and the stock curve, year
    by year; the three arrays have [years + 1] entries and the two summary
    fields are the last entries of their curves. *)
Theorem biodiversity_recovers_slower :
  forall (self : MPASimulator) (b p : R) (nyears : Z),
    baseline_coverage self = Some b ->
    0 <= p ->
    (0 <= nyears)%Z ->
    exists st sc,
      simulate_expansion self p nyears = Some (st, sc) /\
      length (years sc) = Z.to_nat (nyears + 1) /\
      length (stock_recovery sc) = Z.to_nat (nyears + 1) /\
      length (biodiversity_recovery sc) = Z.to_nat (nyears + 1) /\
      nth 0 (biodiversity_recovery sc) 0 = nth 0 (stock_recovery sc) 0 /\
      (forall t : nat, (Z.of_nat t <= nyears)%Z ->
         0.6 <= nth t (biodiversity_recovery sc) 0
             <= nth t (stock_recovery sc) 0) /\
      final_stock_level sc = nth (Z.to_nat nyears) (stock_recovery sc) 0 /\
      final_biodiversity sc
      = nth (Z.to_nat nyears) (biodiversity_recovery sc) 0.
Proof.
  intros self b p n Hb Hp Hn.
  destruct (simulate_expansion_ok self b p n Hb Hn)
    as (st & sc & H & _ & _ & _ & Hy & Hs & Hbio & _ & Hfs & Hfb).
  assert (Hr : 0 <= rate p) by (unfold rate, base_recovery_rate; lra).
  exists st, sc. split; [exact H|].
  rewrite Hy, Hs, Hbio, Hfs, Hfb.
  rewrite !length_map, years_array_length.
  repeat split; try reflexivity.
  - rewrite !curve_entry by lia. unfold biodiversity_at, stock_at.
    simpl. now rewrite !Rmult_0_r.
  - rewrite curve_entry by assumption.
    apply biodiversity_above_initial; [exact Hr | apply pos_INR].
  - rewrite !curve_entry by assumption.
    apply biodiversity_le_stock; [exact Hr | apply pos_INR].
  - rewrite curve_entry by lia. reflexivity.
  - rewrite curve_entry by lia. reflexivity.
Qed.

Lemma biodiversity_recovers_slower_witness :
  exists st sc,
    simulate_expansion {| baseline_coverage := Some 5.0; scenarios := [] |}
      20 10 = Some (st, sc) /\
    0.6 <= nth 10 (biodiversity_recovery sc) 0
        <= nth 10 (stock_recovery sc) 0.
Proof.
  destruct (biodiversity_recovers_slower
              {| baseline_coverage := Some 5.0; scenarios := [] |}
              5.0 20 10%Z eq_refl ltac:(lra)
              (proj1 (Z.leb_le 0 10) eq_refl))
    as (st & sc & H & _ & _ & _ & _ & Hle & _).
  exists st, sc. split; [exact H|].
  apply (Hle 10%nat). apply (proj1 (Z.leb_le 10 10) eq_refl).
Defined.

(** X3.  For a percentage [p >= 0] the economic benefit of year [t] is the
    stock level of that year times [0.3 * p * 1e6] dollars; it never
    decreases from one year to the next and stays within
    [[180000 p, 450000 p]]. *)
Theorem economic_benefit_follows_stock :
  forall (self : MPASimulator) (b p : R) (nyears : Z),
    baseline_coverage self = Some b ->
    0 <= p ->
    (0 <= nyears)%Z ->
    exists st sc,
      simulate_expansion self p nyears = Some (st, sc) /\
      length (economic_benefit_usd sc) = Z.to_nat (nyears + 1) /\
      (forall t : nat, (Z.of_nat t <= nyears)%Z ->
         nth t (economic_benefit_usd sc) 0
         = nth t (stock_recovery sc) 0 * 0.3 * p * 1e6 /\
         180000 * p <= nth t (economic_benefit_usd sc) 0 <= 450000 * p) /\
      (forall t : nat, (Z.of_nat (S t) <= nyears)%Z ->
         nth t (economic_benefit_usd sc) 0
         <= nth (S t) (economic_benefit_usd sc) 0).
Proof.
  intros self b p n Hb Hp Hn.
  destruct (simulate_expansion_ok self b p n Hb Hn)
    as (st & sc & H & _ & _ & _ & _ & Hs & _ & He & _).
  assert (Hr : 0 <= rate p) by (unfold rate, base_recovery_rate; lra).
  exists st, sc. split; [exact H|]. rewrite He, Hs, map_map.
  split; [now rewrite length_map, years_array_length|].
  unfold spillover_multiplier. split.
  - intros t Ht.
    rewrite (curve_entry (fun x => stock_at (rate p) x * 0.3 * p * 1e6))
      by assumption.
    rewrite (curve_entry (stock_at (rate p))) by assumption.
    split; [reflexivity|].
    pose proof (stock_at_above_initial (rate p) (INR t) Hr (pos_INR t)).
    pose proof (stock_at_below_capacity (rate p) (INR t)).
    nra.
  - intros t Ht.
    rewrite !(curve_entry (fun x => stock_at (rate p) x * 0.3 * p * 1e6))
      by lia.
    assert (Hm : stock_at (rate p) (INR t) <= stock_at (rate p) (INR (S t))).
    { apply stock_at_mono_time; [exact Hr|]. apply le_INR. lia. }
    nra.
Qed.

Lemma economic_benefit_follows_stock_witness :
  exists st sc,
    simulate_expansion {| baseline_coverage := Some 5.0; scenarios := [] |}
      20 10 = Some (st, sc) /\
    180000 * 20 <= nth 10 (economic_benefit_usd sc) 0 <= 450000 * 20.
Proof.
  destruct (economic_benefit_follows_stock
              {| baseline_coverage := Some 5.0; scenarios := [] |}
              5.0 20 10%Z eq_refl ltac:(lra)
              (proj1 (Z.leb_le 0 10) eq_refl))
    as (st & sc & H & _ & Hval & _).
  exists st, sc. split; [exact H|].
  apply (Hval 10%nat). apply (proj1 (Z.leb_le 10 10) eq_refl).
Defined.

(** What a successful [simulate_expansion] leaves in the simulator. *)
Lemma simulate_expansion_stored :
  forall (self st : MPASimulator) (p : R) (nyears : Z) (sc : scenario),
    simulate_expansion self p nyears = Some (st, sc) ->
    scenarios_get (scenarios st) p = Some sc /\
    (forall q : R, q <> p ->
       scenarios_get (scenarios st) q = scenarios_get (scenarios self) q) /\
    baseline_coverage st = baseline_coverage self /\
    expansion_percentage sc = p /\
    (forall b : R, baseline_coverage self = Some b -> new_coverage sc = b + p).
Proof.
  intros self st p n sc H.
  destruct (baseline_coverage self) as [b|] eqn:Hb.
  2:{ unfold simulate_expansion in H. rewrite Hb in H. discriminate. }
  assert (Hn : (0 <= n)%Z).
  { destruct (Z.lt_ge_cases n 0) as [Hlt | Hge]; [|exact Hge].
    rewrite (proj2 (simulate_expansion_none_iff self p n) (or_intror Hlt))
      in H. discriminate. }
  destruct (simulate_expansion_ok self b p n Hb Hn)
    as (st' & sc' & H' & Hst & Hp & Hc & _).
  rewrite H in H'. injection H' as <- <-. subst st. simpl.
  repeat split.
  - destruct (Req_dec_T p p); [reflexivity | contradiction].
  - intros q Hq. destruct (Req_dec_T p q); [congruence | reflexivity].
  - exact Hp.
  - intros b' [= <-]. exact Hc.
Qed.



End ScenarioFacts.

Section CompareFacts.
Import Simulator Scenarios.
Local Open Scope R_scope.

Lemma compare_scenarios_rows (pcts : list R) :
  forall (self : MPASimulator) (b : R),
    baseline_coverage self = Some b ->
    exists st rows,
      compare_scenarios self pcts = Some (st, rows) /\
      baseline_coverage st = Some b /\
      rows = map (fun p =>
                    {| row_expansion_pct := p;
                       row_final_stock := stock_at (rate p) 10;
                       row_final_biodiversity := biodiversity_at (rate p) 10;
                       row_economic_benefit_10yr :=
                         stock_at (rate p) 10 * spillover_multiplier * p * 1e6
                    |}) pcts /\
      (forall p, In p pcts -> scenarios_get (scenarios st) p <> None) /\
      (forall q, ~ In q pcts ->
         scenarios_get (scenarios st) q = scenarios_get (scenarios self) q).
Proof.
  induction pcts as [|p pcts IH]; intros self b Hb.
  - exists self, []. repeat split; auto; intros ? [].
  - destruct (simulate_expansion_ok self b p 10 Hb ltac:(lia))
      as (st1 & sc & H1 & Hst1 & _ & _ & _ & Hs & _ & He & Hfs & Hfb).
    assert (Hb1 : baseline_coverage st1 = Some b) by (subst st1; reflexivity).
    destruct (IH st1 b Hb1) as (st2 & rows & H2 & Hb2 & Hrows & Hin & Hout).
    assert (H10 : INR (Z.to_nat 10) = 10) by (simpl; lra).
    assert (Hlast : last_entry (economic_benefit_usd sc)
                    = Some (stock_at (rate p) 10 * spillover_multiplier
                            * p * 1e6)).
    { rewrite He, !last_entry_map, (last_entry_years 10) by lia.
      rewrite H10. reflexivity. }
    exists st2, ({| row_expansion_pct := p;
                    row_final_stock := final_stock_level sc;
                    row_final_biodiversity := final_biodiversity sc;
                    row_economic_benefit_10yr :=
                      stock_at (rate p) 10 * spillover_multiplier * p * 1e6
                 |} :: rows).
    split; [|split; [exact Hb2 | split; [|split]]].
    + cbn [compare_scenarios]. rewrite H1, Hlast, H2. reflexivity.
    + cbn [map]. rewrite Hfs, Hfb, H10, Hrows. reflexivity.
    + intros q [<- | Hq]; [|now apply Hin].
      destruct (in_dec Req_dec_T p pcts) as [Hp | Hp]; [now apply Hin|].
      rewrite (Hout p Hp).
      destruct (simulate_expansion_stored self st1 p 10 sc H1)
        as (Hget & _). rewrite Hget. discriminate.
    + intros q Hq.
      rewrite (Hout q (fun H => Hq (or_intror H))).
      destruct (simulate_expansion_stored self st1 p 10 sc H1)
        as (_ & Hother & _).
      apply Hother. intros ->. apply Hq. now left.
Qed.

(** X5.  With a baseline loaded, [compare_scenarios] returns one row per
    percentage, in the order given; the rows hold the year-10 values of
    the curves, so a row with a larger percentage never has a smaller final
    stock; every percentage compared ends up in the scenario dictionary.
    Without a baseline it raises as soon as the list is not empty. *)
Theorem compare_scenarios_table :
  forall (self : MPASimulator) (pcts : list R),
    (baseline_coverage self = None -> pcts <> [] ->
     compare_scenarios self pcts = None) /\
    (forall b : R,
       baseline_coverage self = Some b ->
       exists st rows,
         compare_scenarios self pcts = Some (st, rows) /\
         map row_expansion_pct rows = pcts /\
         (forall r, In r rows ->
            row_final_stock r = stock_at (rate (row_expansion_pct r)) 10 /\
            row_economic_benefit_10yr r
            = row_final_stock r * 0.3 * row_expansion_pct r * 1e6) /\
         (forall r1 r2, In r1 rows -> In r2 rows ->
            row_expansion_pct r1 <= row_expansion_pct r2 ->
            row_final_stock r1 <= row_final_stock r2) /\
         (forall p, In p pcts -> scenarios_get (scenarios st) p <> None)).
Proof.
  intros self pcts. split.
  - intros Hb Hne. destruct pcts as [|p pcts]; [congruence|].
    cbn [compare_scenarios].
    now rewrite (proj2 (simulate_expansion_none_iff self p 10)
                   (or_introl Hb)).
  - intros b Hb.
    destruct (compare_scenarios_rows pcts self b Hb)
      as (st & rows & H & _ & Hrows & Hin & _).
    exists st, rows. split; [exact H|].
    assert (Hrow : forall r, In r rows ->
              row_final_stock r = stock_at (rate (row_expansion_pct r)) 10 /\
              row_economic_benefit_10yr r
              = row_final_stock r * 0.3 * row_expansion_pct r * 1e6).
    { intros r Hr. rewrite Hrows in Hr. apply in_map_iff in Hr.
      destruct Hr as (p & <- & _). split; reflexivity. }
    split; [|split; [exact Hrow | split; [|exact Hin]]].
    + rewrite Hrows, map_map. cbn [row_expansion_pct]. apply map_id.
    + intros r1 r2 H1 H2 Hle.
      rewrite (proj1 (Hrow r1 H1)), (proj1 (Hrow r2 H2)).
      apply stock_at_mono_rate; [lra|].
      unfold rate, base_recovery_rate. lra.
Qed.

Lemma compare_scenarios_table_witness :
  exists st rows,
    compare_scenarios {| baseline_coverage := Some 5.0; scenarios := [] |}
      [10; 20; 30; 50] = Some (st, rows) /\
    map row_expansion_pct rows = [10; 20; 30; 50].
Proof.
  destruct (proj2 (compare_scenarios_table
                     {| baseline_coverage := Some 5.0; scenarios := [] |}
                     [10; 20; 30; 50]) 5.0 eq_refl)
    as (st & rows & H & Hp & _).
  exists st, rows. split; [exact H | exact Hp].
Defined.

(** X6.  Whenever [load_baseline] returns, a baseline is set: 5.0 when the
    summary file or its [mpa_stats] column is missing, 0 when the parsed
    statistics lack [coverage_percentage]; the stored scenarios are kept,
    and every later simulation over a non-negative number of years
    returns. *)
Theorem load_baseline_enables_simulation :
  forall (self st : MPASimulator) (f : summary_csv),
    load_baseline self f = Some st ->
    scenarios st = scenarios self /\
    (exists b, baseline_coverage st = Some b /\
       (f = SummaryMissing \/ f = SummaryWithoutMpa -> b = 5.0) /\
       (f = SummaryMpa (Some None) -> b = 0) /\
       (forall c, f = SummaryMpa (Some (Some c)) -> b = c)) /\
    (forall (p : R) (nyears : Z),
       (0 <= nyears)%Z -> simulate_expansion st p nyears <> None).
Proof.
  intros self st f H.
  assert (Hb : exists b, baseline_coverage st = Some b /\
             (f = SummaryMissing \/ f = SummaryWithoutMpa -> b = 5.0) /\
             (f = SummaryMpa (Some None) -> b = 0) /\
             (forall c, f = SummaryMpa (Some (Some c)) -> b = c)).
  { destruct f as [| | [[c|]|]]; simpl in H; try discriminate;
      injection H as <-; simpl; eexists; (split; [reflexivity|]);
      repeat split; try congruence; intros [E | E]; discriminate. }
  split; [|split; [exact Hb|]].
  - destruct f as [| | [[c|]|]]; simpl in H; try discriminate;
      injection H as <-; reflexivity.
  - intros p n Hn Hnone.
    apply simulate_expansion_none_iff in Hnone.
    destruct Hb as (b & Hb & _). destruct Hnone as [E | E]; [congruence | lia].
Qed.

Lemma load_baseline_enables_simulation_witness :
  simulate_expansion
    {| baseline_coverage := Some 5.0; scenarios := [] |} 20 10 <> None.
Proof.
  exact (proj2 (proj2 (load_baseline_enables_simulation
                         Simulator.init
                         {| baseline_coverage := Some 5.0; scenarios := [] |}
                         SummaryMissing eq_refl))
               20 10%Z (proj1 (Z.leb_le 0 10) eq_refl)).
Defined.



End CompareFacts.

Section TrainFacts.
Import Models.
Context {sk : Sklearn}.

Lemma bind_ok_inv {A B : Type} (m : method A) (k : A -> method B)
    (self self' : estimator) (b : B) :
  bind m k self = (self', Ok b) ->
  exists self1 a, m self = (self1, Ok a) /\ k a self1 = (self', Ok b).
Proof.
  unfold bind. destruct (m self) as [self1 [a | e]]; [|discriminate].
  intros H. now exists self1, a.
Qed.

Lemma lib_ok {A : Type} (r : option A) (self self' : estimator) (a : A) :
  lib r self = (self', Ok a) -> self' = self /\ r = Some a.
Proof.
  destruct r as [a'|]; cbn; [|discriminate]. now intros [= <- <-].
Qed.

Lemma get_ok (self self' a : estimator) :
  get self = (self', Ok a) -> self' = self /\ a = self.
Proof. now intros [= <- <-]. Qed.

Lemma scaler_fit_transform_ok (X : matrix) (self self' : estimator)
    (a : matrix) :
  scaler_fit_transform X self = (self', Ok a) ->
  model self' = model self /\ feature_names self' = feature_names self.
Proof.
  unfold scaler_fit_transform, bind, get, lib, put, ret, raise.
  destruct (fit_transform (scaler self) X); cbn; [|discriminate].
  now intros [= <- _].
Qed.

Lemma model_fit_ok (X : matrix) (y : vector) (self self' : estimator)
    (u : unit) :
  model_fit X y self = (self', Ok u) ->
  feature_names self' = feature_names self.
Proof.
  unfold model_fit, bind, get, lib, put, ret, raise.
  destruct (fit (model self) X y); cbn; [|discriminate].
  now intros [= <- _].
Qed.

Lemma importance_table_ok (self self' : estimator) (u : unit) :
  importance_table self = (self', Ok u) ->
  self' = self /\
  exists imp, feature_importances (model self) = Some imp /\
              length imp = length (feature_names self).
Proof.
  unfold importance_table, bind, get, lib, ret, raise.
  destruct (feature_importances (model self)) as [imp|]; cbn;
    [|discriminate].
  destruct (length (feature_names self) =? length imp)%nat eqn:E; cbn;
    [|discriminate].
  intros [= <- _]. split; [reflexivity|]. exists imp.
  split; [reflexivity|]. symmetry. now apply Nat.eqb_eq.
Qed.

Lemma report_ok (classifier : bool) (y_test y_pred : vector)
    (self self' : estimator) (u : unit) :
  (if classifier
   then lib (classification_report y_test y_pred)
   else bind (lib (mean_squared_error y_test y_pred)) (fun _ => ret tt))
    self = (self', Ok u) ->
  self' = self.
Proof.
  destruct classifier.
  - intros H. now apply lib_ok in H.
  - unfold bind, lib, ret, raise.
    destruct (mean_squared_error y_test y_pred); cbn; [|discriminate].
    now intros [= <- _].
Qed.

Lemma train_on_ok (classifier : bool)
    (split : matrix * matrix * vector * vector)
    (self self' : estimator) (v : Q) :
  train_on classifier split self = (self', Ok v) ->
  trained self' = true /\
  feature_names self' = feature_names self /\
  exists imp : list Q,
    feature_importances (model self') = Some imp /\
    length imp = length (feature_names self).
Proof.
  destruct split as [[[X_train X_test] y_train] y_test]. unfold train_on.
  intros H.
  apply bind_ok_inv in H. destruct H as (s1 & Xs & H1 & H).
  apply scaler_fit_transform_ok in H1. destruct H1 as [_ Hn1].
  apply bind_ok_inv in H. destruct H as (s2 & g2 & H2 & H).
  apply get_ok in H2. destruct H2 as [-> ->].
  apply bind_ok_inv in H. destruct H as (s3 & Xt & H3 & H).
  apply lib_ok in H3. destruct H3 as [-> _].
  apply bind_ok_inv in H. destruct H as (s4 & u4 & H4 & H).
  apply model_fit_ok in H4.
  apply bind_ok_inv in H. destruct H as (s5 & g5 & H5 & H).
  apply get_ok in H5. destruct H5 as [-> ->].
  apply bind_ok_inv in H. destruct H as (s6 & sc6 & H6 & H).
  apply lib_ok in H6. destruct H6 as [-> _].
  apply bind_ok_inv in H. destruct H as (s7 & sc7 & H7 & H).
  apply lib_ok in H7. destruct H7 as [-> _].
  apply bind_ok_inv in H. destruct H as (s8 & yp & H8 & H).
  apply lib_ok in H8. destruct H8 as [-> _].
  apply bind_ok_inv in H. destruct H as (s9 & u9 & H9 & H).
  apply report_ok in H9. subst s9.
  apply bind_ok_inv in H. destruct H as (s10 & u10 & H10 & H).
  apply importance_table_ok in H10. destruct H10 as (-> & imp & Himp & Hlen).
  apply bind_ok_inv in H. destruct H as (s11 & u11 & H11 & H).
  unfold set_trained, bind, get, put in H11. cbn in H11.
  injection H11 as <-. injection H as <- _. cbn.
  split; [reflexivity|]. split; [congruence|].
  exists imp. split; [exact Himp | congruence].
Qed.

(** X8.  A [train] call returns normally only if the fitted forest
    reports as many importances as the object has feature names (the
    names [prepare_training_data] stored); it then sets the flag and
    leaves the feature names as they were. *)
Theorem train_requires_matching_feature_names :
  forall (k : model_class) (X : matrix) (y : vector)
         (self self' : estimator) (v : Q),
    train k X y self = (self', Ok v) ->
    trained self' = true /\
    feature_names self' = feature_names self /\
    exists imp : list Q,
      feature_importances (model self') = Some imp /\
      length imp = length (feature_names self).
Proof.
  intros k X y self self' v H.
  destruct k; unfold train, OverfishingRiskModel_train,
    JuvenileCatchForecastModel_train in H;
    apply bind_ok_inv in H; destruct H as (s1 & sp & H1 & H);
    apply lib_ok in H1; destruct H1 as [-> _];
    now apply train_on_ok in H.
Qed.

End TrainFacts.

Section TrainExampleFacts.
Local Existing Instance Models.toy_sklearn.

Lemma train_requires_matching_feature_names_witness :
  exists imp : list Q,
    Models.feature_importances
      (Models.model
         (fst (Models.train Models.OverfishingRisk Models.toy_X Models.toy_y
                 {| Models.model := Models.RandomForestClassifier;
                    Models.scaler := Models.StandardScaler;
                    Models.feature_names := Models.toy_names;
                    Models.trained := false |}))) = Some imp /\
    length imp = 2%nat.
Proof.
  destruct (@train_requires_matching_feature_names Models.toy_sklearn
              Models.OverfishingRisk Models.toy_X Models.toy_y
              {| Models.model := Models.RandomForestClassifier;
                 Models.scaler := Models.StandardScaler;
                 Models.feature_names := Models.toy_names;
                 Models.trained := false |}
              _ 1%Q eq_refl)
    as (_ & _ & imp & Himp & Hlen).
  exists imp. split; [exact Himp | exact Hlen].
Defined.

End TrainExampleFacts.

Section TrainingRowFacts.
Import Floats Training.
Local Open Scope Q_scope.




End TrainingRowFacts.

Section RiskClassFacts.
Import Floats Risk RiskClass.
Local Open Scope Q_scope.

Lemma Qle_bool_false (x y : Q) : Qle_bool x y = false <-> y < x.
Proof.
  rewrite <- not_true_iff_false, Qle_bool_iff. split.
  - apply Qnot_le_lt.
  - apply Qlt_not_le.
Qed.

Lemma Qle_bool_true (x y : Q) : x <= y -> Qle_bool x y = true.
Proof. apply Qle_bool_iff. Qed.

Lemma Qle_bool_gt (x y : Q) : y < x -> Qle_bool x y = false.
Proof. apply Qle_bool_false. Qed.

Lemma Qltb_lt (x y : Q) : x < y -> Qltb x y = true.
Proof. apply Qltb_true. Qed.

Lemma Qltb_ge (x y : Q) : y <= x -> Qltb x y = false.
Proof. apply Qltb_false. Qed.

Ltac cases_done :=
  repeat match goal with
         | |- _ /\ _ => split
         | |- _ <-> _ => split
         | |- _ -> _ => intro
         | |- forall _, _ => intro
         | H : Fin _ = Fin _ |- _ => injection H as H; subst
         | H : _ /\ _ |- _ => destruct H
         | H : _ \/ _ |- _ => destruct H
         | H : exists _, _ |- _ => destruct H
         end;
  try discriminate; try congruence; try lra; auto.

(** The three ranges a number can fall in. *)
Lemma risk_ranges (q : Q) :
  q < 0.3 \/ (0.3 <= q /\ q < 0.6) \/ 0.6 <= q.
Proof.
  destruct (Qlt_le_dec q 0.3); [now left|].
  destruct (Qlt_le_dec q 0.6); [right; left; now split | right; now right].
Qed.

(** X10.  The class of a cell and the three printed masks agree on every
    number: low below 0.3, medium from 0.3 up to but excluding 0.6, high
    from 0.6 on.  A NaN cell is the exception: its class is high, yet none
    of the three masks counts it. *)
Theorem risk_class_matches_masks :
  forall x : xfloat Q,
    (mask_low x = true <-> risk_class_of x = Low) /\
    (mask_medium x = true <-> risk_class_of x = Medium) /\
    (mask_high x = true <-> risk_class_of x = High /\ x <> NaN) /\
    (forall q, x = Fin q ->
       (risk_class_of x = Low <-> q < 0.3) /\
       (risk_class_of x = Medium <-> 0.3 <= q /\ q < 0.6) /\
       (risk_class_of x = High <-> 0.6 <= q)) /\
    (x = NaN ->
       risk_class_of x = High /\
       mask_low x = false /\ mask_medium x = false /\ mask_high x = false).
Proof.
  intros x.
  destruct x as [q| | |]; unfold mask_low, mask_medium, mask_high,
    risk_class_of; cbn [flt fle].
  - destruct (risk_ranges q) as [H | [[H1 H2] | H]].
    + rewrite (Qltb_lt q 0.3), (Qle_bool_gt 0.3 q), (Qle_bool_gt 0.6 q)
        by lra. cbn. cases_done.
    + rewrite (Qltb_ge q 0.3), (Qltb_lt q 0.6), (Qle_bool_true 0.3 q),
        (Qle_bool_gt 0.6 q) by lra. cbn. cases_done.
    + rewrite (Qltb_ge q 0.3), (Qltb_ge q 0.6), (Qle_bool_true 0.3 q),
        (Qle_bool_true 0.6 q) by lra. cbn. cases_done.
  - cbn. cases_done.
  - cbn. cases_done.
  - cbn. cases_done.
Qed.

(** X11.  The "High-risk areas" figure of the report counts the cells
    with an index above 0.6.  Every cell it counts has the class high; the
    cells of class high it leaves out are exactly those whose index is 0.6
    or NaN. *)
Theorem report_high_undercounts :
  forall x : xfloat Q,
    (report_high x = true -> risk_class_of x = High) /\
    (risk_class_of x = High /\ report_high x = false
     <-> x = NaN \/ exists q, x = Fin q /\ q == 0.6).
Proof.
  intros x. destruct x as [q| | |]; unfold report_high, risk_class_of;
    cbn [flt].
  - destruct (risk_ranges q) as [H | [[H1 H2] | H]].
    + rewrite (Qltb_lt q 0.3), (Qltb_ge 0.6 q) by lra. cases_done.
    + rewrite (Qltb_ge q 0.3), (Qltb_lt q 0.6), (Qltb_ge 0.6 q) by lra.
      cases_done.
    + rewrite (Qltb_ge q 0.3), (Qltb_ge q 0.6) by lra.
      destruct (Qlt_le_dec 0.6 q) as [Hgt | Hle].
      * rewrite (Qltb_lt 0.6 q) by lra. cases_done.
      * rewrite (Qltb_ge 0.6 q) by lra. cases_done.
        right. exists q. split; [reflexivity | lra].
  - cases_done.
  - cases_done.
  - cases_done.
Qed.

End RiskClassFacts.

Section NanPropagationFacts.
Import Floats Risk RiskClass.
Local Open Scope Q_scope.

Lemma fadd_nan_l (b : xfloat Q) : fadd NaN b = NaN.
Proof. reflexivity. Qed.

Lemma fadd_nan_r (a : xfloat Q) : fadd a NaN = NaN.
Proof. destruct a; reflexivity. Qed.

Lemma minmax_normalize_total (risk : field) :
  risk <> [] ->
  exists out,
    minmax_normalize risk = Some out /\
    length out = length risk /\
    forall i, nth_error risk i = Some NaN -> nth_error out i = Some NaN.
Proof.
  intros Hne. unfold minmax_normalize, field_min, field_max, reduce_skipna.
  destruct risk as [|c risk]; [congruence|].
  set (cells := c :: risk).
  eexists. split; [reflexivity|].
  match goal with
  | |- context [if ?b then _ else _] => destruct b
  end.
  - split; [now rewrite length_map|]. intros i Hi.
    rewrite nth_error_map, Hi. reflexivity.
  - split; [now rewrite length_map|]. intros i Hi.
    rewrite nth_error_map, Hi. reflexivity.
Qed.

(** A component and its normalized field, for fields of any content. *)
Lemma normalize_all_total (components : list (string * field)) :
  (forall kf, In kf components -> snd kf <> []) ->
  exists normalized,
    normalize_all components = Some normalized /\
    Forall2 (fun kf kn =>
               length (snd kn) = length (snd kf) /\
               forall i, nth_error (snd kf) i = Some NaN ->
                         nth_error (snd kn) i = Some NaN)
            components normalized.
Proof.
  induction components as [|[k f] components IH]; intros Hne.
  - exists []. split; [reflexivity | constructor].
  - destruct IH as (ns & Hns & Hrel).
    { intros kf Hin. apply Hne. now right. }
    destruct (minmax_normalize_total f) as (out & Hout & Hlen & Hnan).
    { apply (Hne (k, f)). now left. }
    exists ((k, out) :: ns). split.
    + cbn [normalize_all]. now rewrite Hout, Hns.
    + constructor; [split; assumption | exact Hrel].
Qed.

(** Adding grids of [n] cells: the sum has [n] cells, and a cell that is
    NaN in the accumulator or in a term is NaN in the sum. *)
Lemma sum_grids_nan (n i : nat) (terms : list field) :
  Forall (fun t => length t = n) terms ->
  forall acc : field,
    length acc = n ->
    nth_error acc i = Some NaN \/
    Exists (fun t => nth_error t i = Some NaN) terms ->
    exists g,
      fold_left (arr_op fadd) (map Grid terms) (Grid acc) = Grid g /\
      length g = n /\ nth_error g i = Some NaN.
Proof.
  induction 1 as [|t terms Ht Hterms IH]; intros acc Hacc Hnan.
  - exists acc. split; [reflexivity|]. split; [exact Hacc|].
    destruct Hnan as [H | H]; [exact H | inversion H].
  - cbn [map fold_left arr_op]. apply IH.
    + rewrite zip_with_length. lia.
    + assert (Hi : nth_error acc i = Some NaN \/
                   nth_error t i = Some NaN \/
                   Exists (fun t => nth_error t i = Some NaN) terms).
      { destruct Hnan as [H | H]; [now left|].
        inversion H; subst; [right; now left | right; now right]. }
      destruct Hi as [Ha | [Hb | Hc]]; [left | left | now right].
      * assert (Hlt : (i < length t)%nat).
        { rewrite Ht, <- Hacc. apply nth_error_Some. congruence. }
        destruct (nth_error t i) as [b|] eqn:Eb;
          [|apply nth_error_None in Eb; lia].
        rewrite (zip_with_nth_error fadd acc t i _ _ Ha Eb). reflexivity.
      * assert (Hlt : (i < length acc)%nat).
        { rewrite Hacc, <- Ht. apply nth_error_Some. congruence. }
        destruct (nth_error acc i) as [a|] eqn:Ea;
          [|apply nth_error_None in Ea; lia].
        rewrite (zip_with_nth_error fadd acc t i _ _ Ea Hb).
        now rewrite fadd_nan_r.
Qed.

(** X12.  A cell that is missing (NaN) in any one of the factor fields
    supplied to the composer of process_data_script.py is NaN in the
    combined index, whatever the other factors hold there, and is then
    classified as high risk. *)
Theorem nan_factor_cell_is_classified_high :
  forall (components : list (string * list (xfloat Q))) (n i : nat)
         (key : string) (f : field),
    In (key, f) components ->
    (forall kf, In kf components -> length (snd kf) = n) ->
    nth_error f i = Some NaN ->
    exists g : field,
      combine_risk_components components = Some (Grid g) /\
      length g = n /\
      nth_error g i = Some NaN /\
      nth_error (risk_class g) i = Some High.
Proof.
  intros components n i key f Hin Hlen Hnan. unfold field in *.
  assert (Hi : (i < n)%nat).
  { rewrite <- (Hlen (key, f) Hin). apply nth_error_Some. cbn. congruence. }
  destruct (normalize_all_total components) as (ns & Hns & Hrel).
  { intros kf Hkf Hnil. specialize (Hlen kf Hkf). unfold field in *.
    rewrite Hnil in Hlen. cbn in Hlen. lia. }
  unfold field in *.
  set (W := py_sum (map (fun kn : string * list (xfloat Q) => weights_get (fst kn)) ns)).
  set (scaled := map (fun kn : string * list (xfloat Q) =>
                        map (fun c => fmul c (Fin (weights_get (fst kn))))
                            (snd kn)) ns).
  assert (Hscaled_len : Forall (fun t => length t = n) scaled).
  { unfold scaled. apply Forall_map. clear - Hrel Hlen.
    induction Hrel as [|kf kn cs ns' [Hl _] _ IH]; constructor.
    - rewrite length_map, Hl. apply Hlen. now left.
    - apply IH. intros kf' H. apply Hlen. now right. }
  assert (Hscaled_nan : Exists (fun t => nth_error t i = Some NaN) scaled).
  { unfold scaled. apply Exists_map. clear - Hrel Hin Hnan.
    induction Hrel as [|kf kn cs ns' [_ Hn] _ IH]; [contradiction|].
    destruct Hin as [-> | Hin].
    - left. rewrite nth_error_map, (Hn i Hnan). reflexivity.
    - right. now apply IH. }
  assert (Hsum : exists g,
            py_sum_arrays (map Grid scaled) = Grid g /\
            length g = n /\ nth_error g i = Some NaN).
  { unfold py_sum_arrays.
    destruct scaled as [|t ts]; [inversion Hscaled_nan|].
    cbn [map fold_left arr_op].
    inversion Hscaled_len as [|? ? Ht Hts]; subst.
    apply (sum_grids_nan (length t) i ts Hts);
      [now rewrite length_map|].
    inversion Hscaled_nan as [? ? H | ? ? H]; subst; [left | now right].
    rewrite nth_error_map, H. reflexivity. }
  destruct Hsum as (g & Hg & Hgl & Hgn).
  exists (map (fun c => fdiv c (Fin W)) g).
  split; [|split; [now rewrite length_map | split]].
  - unfold combine_risk_components.
    destruct components as [|c cs]; [contradiction|].
    rewrite Hns. unfold weighted_average.
    assert (E : map (fun kn : string * list (xfloat Q) =>
                       arr_op fmul (Grid (snd kn))
                         (Scalar (Fin (weights_get (fst kn))))) ns
                = map Grid scaled)
      by (unfold scaled; rewrite map_map; reflexivity).
    exact (eq_trans
             (f_equal (fun t => Some (arr_op fdiv (py_sum_arrays t)
                                        (Scalar (Fin W)))) E)
             (f_equal (fun a => Some (arr_op fdiv a (Scalar (Fin W)))) Hg)).
  - rewrite nth_error_map, Hgn. reflexivity.
  - unfold risk_class. rewrite !nth_error_map, Hgn. reflexivity.
Qed.

Lemma nan_example_lengths :
  forall kf : string * field,
    In kf [("sst"%string, [Fin 1; NaN; Fin 3]);
           ("frontal"%string, [Fin 0; Fin 1; Fin 0])] ->
    length (snd kf) = 3%nat.
Proof. intros kf [<- | [<- | []]]; reflexivity. Defined.

Lemma nan_factor_cell_is_classified_high_witness :
  exists g : field,
    combine_risk_components
      [("sst"%string, [Fin 1; NaN; Fin 3]);
       ("frontal"%string, [Fin 0; Fin 1; Fin 0])] = Some (Grid g) /\
    nth_error g 1 = Some NaN /\
    nth_error (risk_class g) 1 = Some High.
Proof.
  destruct (nan_factor_cell_is_classified_high
              [("sst"%string, [Fin 1; NaN; Fin 3]);
               ("frontal"%string, [Fin 0; Fin 1; Fin 0])]
              3 1 "sst"%string [Fin 1; NaN; Fin 3]
              (or_introl eq_refl) nan_example_lengths eq_refl)
    as (g & Hg & _ & Hnan & Hcls).
  exists g. repeat split; assumption.
Defined.

End NanPropagationFacts.

Section NormalizationFacts.
Import Floats Risk FieldValues.
Local Open Scope Q_scope.

Lemma spec_minmax_at_min (qs : list Q) :
  list_min qs < list_max qs -> spec_minmax qs (list_min qs) == 0.
Proof.
  intros H. unfold spec_minmax. rewrite (Qltb_lt _ _ H). field. lra.
Qed.

Lemma spec_minmax_at_max (qs : list Q) :
  list_min qs < list_max qs -> spec_minmax qs (list_max qs) == 1.
Proof.
  intros H. unfold spec_minmax. rewrite (Qltb_lt _ _ H). field. lra.
Qed.

Lemma spec_minmax_monotone (qs : list Q) (x y : Q) :
  x <= y -> spec_minmax qs x <= spec_minmax qs y.
Proof.
  intros Hxy. unfold spec_minmax.
  destruct (Qltb (list_min qs) (list_max qs)) eqn:E; [|lra].
  apply Qltb_true in E.
  apply Qle_shift_div_l; [lra|].
  setoid_replace ((x - list_min qs) / (list_max qs - list_min qs)
                  * (list_max qs - list_min qs))
    with (x - list_min qs) by (field; lra).
  lra.
Qed.

(** X13.  On a field of finite numbers that is not constant the
    normalized field reaches both ends of [0, 1]: a cell holding the
    minimum becomes 0 and a cell holding the maximum becomes 1; and the
    normalization keeps the order of the cells. *)
Theorem minmax_normalize_attains_bounds :
  forall qs : list Q,
    list_min qs < list_max qs ->
    exists out : field,
      minmax_normalize (finite_field qs) = Some out /\
      (exists i q, nth_error out i = Some (Fin q) /\ q == 0) /\
      (exists j q, nth_error out j = Some (Fin q) /\ q == 1) /\
      (forall i j x y,
         nth_error qs i = Some x -> nth_error qs j = Some y -> x <= y ->
         exists p q, nth_error out i = Some (Fin p) /\
                     nth_error out j = Some (Fin q) /\ p <= q).
Proof.
  intros qs Hlt.
  assert (Hne : qs <> []) by (intros ->; cbn in Hlt; lra).
  destruct (minmax_normalize_fin_grid qs Hne) as (out & Hout & Hlen & Hcells).
  destruct (list_min_spec qs Hne) as [Hmin _].
  destruct (list_max_spec qs Hne) as [Hmax _].
  assert (Hcell : forall i x, nth_error qs i = Some x ->
            exists q, nth_error out i = Some (Fin q) /\
                      q == spec_minmax qs x).
  { intros i x Hi.
    assert (Hlt' : (i < length qs)%nat)
      by (apply nth_error_Some; congruence).
    destruct (Hcells i Hlt') as (q & Hq & Heq). exists q.
    split; [exact Hq|]. rewrite Heq.
    now rewrite (nth_error_nth qs i 0 Hi). }
  exists out. split; [exact Hout|]. split; [|split].
  - apply In_nth_error in Hmin. destruct Hmin as [i Hi].
    destruct (Hcell i _ Hi) as (q & Hq & Heq). exists i, q.
    split; [exact Hq|]. rewrite Heq. now apply spec_minmax_at_min.
  - apply In_nth_error in Hmax. destruct Hmax as [j Hj].
    destruct (Hcell j _ Hj) as (q & Hq & Heq). exists j, q.
    split; [exact Hq|]. rewrite Heq. now apply spec_minmax_at_max.
  - intros i j x y Hi Hj Hxy.
    destruct (Hcell i x Hi) as (p & Hp & Hpe).
    destruct (Hcell j y Hj) as (q & Hq & Hqe).
    exists p, q. split; [exact Hp|]. split; [exact Hq|].
    rewrite Hpe, Hqe. now apply spec_minmax_monotone.
Qed.

Lemma minmax_normalize_attains_bounds_witness :
  exists out : field,
    minmax_normalize (finite_field [3; 1; 2]) = Some out /\
    (exists i q, nth_error out i = Some (Fin q) /\ q == 0) /\
    (exists j q, nth_error out j = Some (Fin q) /\ q == 1).
Proof.
  destruct (minmax_normalize_attains_bounds [3; 1; 2] eq_refl)
    as (out & Hout & H0 & H1 & _).
  exists out. repeat split; assumption.
Defined.

Lemma filter_number_or_missing (cells : field) :
  Forall number_or_missing cells ->
  filter (fun c => negb (is_nan c)) cells
  = finite_field (finite_values cells).
Proof.
  induction 1 as [|c cells [-> | (q & ->)] _ IH]; cbn.
  - reflexivity.
  - exact IH.
  - now rewrite IH.
Qed.

(** X14.  Missing cells do not disturb the normalization: on a field
    whose cells are numbers or NaN, with at least one number, every NaN
    cell stays NaN and every number is normalized against the minimum and
    the maximum of the numbers alone, into [0, 1]. *)
Theorem minmax_normalize_skips_missing :
  forall cells : field,
    Forall number_or_missing cells ->
    finite_values cells <> [] ->
    exists out : field,
      minmax_normalize cells = Some out /\
      length out = length cells /\
      forall i : nat,
        (nth_error cells i = Some NaN -> nth_error out i = Some NaN) /\
        (forall q, nth_error cells i = Some (Fin q) ->
           exists q', nth_error out i = Some (Fin q') /\
                      q' == spec_minmax (finite_values cells) q /\
                      0 <= q' <= 1).
Proof.
  intros cells Hcells Hne.
  assert (Hcne : cells <> []) by (intros ->; now apply Hne).
  set (qs := finite_values cells) in *.
  assert (Hmin : field_min cells = Some (Fin (list_min qs))).
  { unfold field_min, reduce_skipna.
    destruct cells as [|c cells']; [congruence|].
    rewrite (filter_number_or_missing _ Hcells). fold qs.
    destruct qs as [|x r]; [congruence|]. cbn [finite_field map list_min].
    now rewrite <- fold_fmin2_finite. }
  assert (Hmax : field_max cells = Some (Fin (list_max qs))).
  { unfold field_max, reduce_skipna.
    destruct cells as [|c cells']; [congruence|].
    rewrite (filter_number_or_missing _ Hcells). fold qs.
    destruct qs as [|x r]; [congruence|]. cbn [finite_field map list_max].
    now rewrite <- fold_fmax2_finite. }
  assert (Hin : forall i q, nth_error cells i = Some (Fin q) -> In q qs).
  { intros i q Hi. apply nth_error_In in Hi. unfold qs, finite_values.
    apply in_flat_map. exists (Fin q). split; [exact Hi | now left]. }
  unfold minmax_normalize. rewrite Hmin, Hmax. cbn [flt].
  eexists. split; [reflexivity|].
  unfold spec_minmax.
  destruct (Qltb (list_min qs) (list_max qs)) eqn:E.
  - apply Qltb_true in E. split; [now rewrite length_map|].
    intros i. split.
    + intros Hi. rewrite nth_error_map, Hi. reflexivity.
    + intros q Hi. rewrite nth_error_map, Hi. cbn.
      destruct (Qeq_bool (list_max qs + - list_min qs) 0) eqn:Ez.
      { apply Qeq_bool_eq in Ez. lra. }
      eexists. split; [reflexivity|]. split; [reflexivity|].
      pose proof (spec_minmax_range qs q (Hin i q Hi)) as Hr.
      unfold spec_minmax in Hr. rewrite (Qltb_lt _ _ E) in Hr. exact Hr.
  - split; [now rewrite length_map|].
    intros i. split.
    + intros Hi. rewrite nth_error_map, Hi. reflexivity.
    + intros q Hi. rewrite nth_error_map, Hi. cbn.
      eexists. split; [reflexivity|]. split; [ring | lra].
Qed.

Lemma missing_example_cells :
  Forall number_or_missing [Fin 4; NaN; Fin 2; Fin 3].
Proof.
  apply Forall_cons; [right; now exists 4|].
  apply Forall_cons; [now left|].
  apply Forall_cons; [right; now exists 2|].
  apply Forall_cons; [right; now exists 3|].
  apply Forall_nil.
Defined.

Lemma minmax_normalize_skips_missing_witness :
  exists out : field,
    minmax_normalize [Fin 4; NaN; Fin 2; Fin 3] = Some out /\
    nth_error out 1 = Some NaN.
Proof.
  destruct (minmax_normalize_skips_missing [Fin 4; NaN; Fin 2; Fin 3]
              missing_example_cells ltac:(discriminate))
    as (out & Hout & _ & Hcells).
  exists out. split; [exact Hout|].
  apply (proj1 (Hcells 1%nat)). reflexivity.
Defined.

Lemma list_min_affine (a b : Q) (qs : list Q) :
  0 < a -> qs <> [] ->
  list_min (map (fun x => a * x + b) qs) == a * list_min qs + b.
Proof.
  intros Ha Hne.
  assert (Hne' : map (fun x => a * x + b) qs <> [])
    by (destruct qs; [congruence | discriminate]).
  destruct (list_min_spec qs Hne) as [Hin Hle].
  destruct (list_min_spec _ Hne') as [Hin' Hle'].
  apply in_map_iff in Hin'. destruct Hin' as (x0 & Hx0 & Hx0in).
  specialize (Hle x0 Hx0in).
  specialize (Hle' _ (in_map (fun x => a * x + b) qs _ Hin)).
  rewrite <- Hx0 in *. nra.
Qed.

Lemma list_max_affine (a b : Q) (qs : list Q) :
  0 < a -> qs <> [] ->
  list_max (map (fun x => a * x + b) qs) == a * list_max qs + b.
Proof.
  intros Ha Hne.
  assert (Hne' : map (fun x => a * x + b) qs <> [])
    by (destruct qs; [congruence | discriminate]).
  destruct (list_max_spec qs Hne) as [Hin Hle].
  destruct (list_max_spec _ Hne') as [Hin' Hle'].
  apply in_map_iff in Hin'. destruct Hin' as (x0 & Hx0 & Hx0in).
  specialize (Hle x0 Hx0in).
  specialize (Hle' _ (in_map (fun x => a * x + b) qs _ Hin)).
  rewrite <- Hx0 in *. nra.
Qed.

Lemma spec_minmax_affine (a b : Q) (qs : list Q) (x : Q) :
  0 < a -> qs <> [] ->
  spec_minmax (map (fun x => a * x + b) qs) (a * x + b) == spec_minmax qs x.
Proof.
  intros Ha Hne.
  pose proof (list_min_affine a b qs Ha Hne) as Hmin.
  pose proof (list_max_affine a b qs Ha Hne) as Hmax.
  unfold spec_minmax.
  destruct (Qltb (list_min qs) (list_max qs)) eqn:E.
  - apply Qltb_true in E.
    rewrite (Qltb_lt (list_min (map (fun x => a * x + b) qs))
                     (list_max (map (fun x => a * x + b) qs)))
      by (rewrite Hmin, Hmax; nra).
    rewrite Hmin, Hmax.
    assert (Hd : 0 < a * (list_max qs - list_min qs)) by nra.
    field. split; lra.
  - apply Qltb_false in E.
    rewrite (Qltb_ge (list_min (map (fun x => a * x + b) qs))
                     (list_max (map (fun x => a * x + b) qs)))
      by (rewrite Hmin, Hmax; nra).
    reflexivity.
Qed.

(** X15.  The normalization does not depend on the unit of the field:
    rescaling every cell by [x |-> a x + b] with [a > 0] leaves every cell
    of the normalized field unchanged. *)
Theorem minmax_normalize_unit_invariant :
  forall (a b : Q) (qs : list Q),
    0 < a ->
    qs <> [] ->
    exists out out' : field,
      minmax_normalize (finite_field qs) = Some out /\
      minmax_normalize (finite_field (map (fun x => a * x + b) qs))
      = Some out' /\
      length out = length qs /\ length out' = length qs /\
      forall i : nat, (i < length qs)%nat ->
        exists q q',
          nth_error out i = Some (Fin q) /\
          nth_error out' i = Some (Fin q') /\
          q == q'.
Proof.
  intros a b qs Ha Hne.
  assert (Hne' : map (fun x => a * x + b) qs <> [])
    by (destruct qs; [congruence | discriminate]).
  destruct (minmax_normalize_fin_grid qs Hne) as (out & Hout & Hlen & Hc).
  destruct (minmax_normalize_fin_grid _ Hne') as (out' & Hout' & Hlen' & Hc').
  rewrite length_map in Hlen', Hc'.
  exists out, out'. repeat split; try assumption.
  intros i Hi.
  destruct (Hc i Hi) as (q & Hq & Heq).
  destruct (Hc' i Hi) as (q' & Hq' & Heq').
  exists q, q'. split; [exact Hq|]. split; [exact Hq'|].
  rewrite Heq, Heq'.
  rewrite (nth_indep (map (fun x => a * x + b) qs) 0 (a * 0 + b))
    by (now rewrite length_map).
  rewrite (map_nth (fun x => a * x + b)).
  symmetry. now apply spec_minmax_affine.
Qed.

Lemma minmax_normalize_unit_invariant_witness :
  exists out out' : field,
    minmax_normalize (finite_field [10; 20; 15]) = Some out /\
    minmax_normalize
      (finite_field (map (fun x => (9 # 5) * x + 32) [10; 20; 15]))
    = Some out'.
Proof.
  destruct (minmax_normalize_unit_invariant (9 # 5) 32 [10; 20; 15]
              eq_refl ltac:(discriminate))
    as (out & out' & H & H' & _).
  exists out, out'. split; [exact H | exact H'].
Defined.

End NormalizationFacts.

Section ProximityMoreFacts.
Import Proximity.
Local Open Scope Q_scope.

Variable point : Type.
Variable geometry : Type.
Variable distance : point -> geometry -> option Q.

Lemma py_min_le_left (a b : Q) : py_min a b <= a.
Proof.
  unfold py_min. destruct (Qlt_le_dec b a) as [H | H]; lra.
Qed.

Lemma py_min_le_right (a b : Q) : py_min a b <= b.
Proof.
  unfold py_min. destruct (Qlt_le_dec b a) as [H | H]; lra.
Qed.

Lemma py_min_pos (a b : Q) : 0 < a -> 0 < b -> 0 < py_min a b.
Proof.
  intros Ha Hb. unfold py_min. destruct (Qlt_le_dec b a); assumption.
Qed.

Lemma scan_record_of_cluster (c : cluster point)
    (mpas : list (mpa_row geometry)) (r : suspect) :
  In r (scan_mpas distance c mpas) ->
  s_cluster_id r = cluster_id c /\
  s_n_vessels r = n_vessels c /\
  s_total_effort_hours r = total_effort_hours c /\
  0 < risk_score r /\ risk_score r <= 1.
Proof.
  induction mpas as [|m rest IH]; cbn [scan_mpas]; [intros []|].
  destruct (distance (cluster_centroid c) (mpa_geometry m)) as [d|];
    [|exact IH].
  destruct (Qlt_le_dec d 0.05) as [Hlt | _]; [|exact IH].
  intros [<- | []]. cbn. repeat split.
  - apply py_min_pos; [reflexivity | lra].
  - eapply Qle_trans; [apply py_min_le_left | discriminate].
Qed.

(** X16.  The clusters flagged near an MPA: never the noise label,
    at most one record per cluster of the list, each record carrying the
    vessel count and effort of its cluster and a risk score in (0, 1];
    and with an empty MPA table nothing is flagged. *)
Theorem suspicious_clusters_records :
  forall (clusters : list (cluster point)) (mpas : list (mpa_row geometry)),
    (length (suspicious_clusters distance clusters mpas)
     <= length (filter (fun c => negb (cluster_id c =? -1)%Z) clusters))%nat /\
    (forall r, In r (suspicious_clusters distance clusters mpas) ->
       s_cluster_id r <> (-1)%Z /\
       (exists c, In c clusters /\
                  s_cluster_id r = cluster_id c /\
                  s_n_vessels r = n_vessels c /\
                  s_total_effort_hours r = total_effort_hours c) /\
       0 < risk_score r /\ risk_score r <= 1) /\
    suspicious_clusters distance clusters [] = [].
Proof.
  intros clusters mpas. unfold suspicious_clusters. split; [|split].
  - induction clusters as [|c clusters IH]; cbn; [lia|].
    rewrite length_app.
    destruct (cluster_id c =? -1)%Z; cbn.
    + exact IH.
    + pose proof (scan_mpas_at_most_one point geometry distance c mpas). lia.
  - intros r Hr. apply in_flat_map in Hr. destruct Hr as (c & Hc & Hr).
    destruct (Z.eqb_spec (cluster_id c) (-1)) as [E | E]; [contradiction|].
    destruct (scan_record_of_cluster c mpas r Hr)
      as (Hid & Hn & He & Hpos & Hle).
    split; [congruence|]. split; [|split; assumption].
    exists c. repeat split; assumption.
  - induction clusters as [|c clusters IH]; cbn [flat_map]; [reflexivity|].
    rewrite IH. destruct (cluster_id c =? -1)%Z; reflexivity.
Qed.

Lemma nearest_qualifying_spec (ds : list Q) :
  match nearest_qualifying ds with
  | Some m => m < 0.05 /\ In m ds /\ forall d, In d ds -> m <= d
  | None => forall d, In d ds -> 0.05 <= d
  end.
Proof.
  induction ds as [|d ds IH]; cbn [nearest_qualifying]; [intros d []|].
  destruct (nearest_qualifying ds) as [e|].
  - destruct IH as (He & Hin & Hle).
    destruct (Qlt_le_dec d e) as [Hd | Hd].
    + split; [lra|]. split; [now left|].
      intros d' [<- | Hd']; [lra|]. specialize (Hle d' Hd'). lra.
    + split; [exact He|]. split; [now right|].
      intros d' [<- | Hd']; [exact Hd | now apply Hle].
  - destruct (Qlt_le_dec d 0.05) as [Hd | Hd].
    + split; [exact Hd|]. split; [now left|].
      intros d' [<- | Hd']; [lra|]. specialize (IH d' Hd'). lra.
    + intros d' [<- | Hd']; [exact Hd | now apply IH].
Qed.

(** X17.  The score of a flagged cluster never exceeds the score the
    nearest MPA would give: the first MPA closer than 0.05 degree is at
    least as far as the nearest one, and the score decreases with the
    distance. *)
Theorem risk_score_at_most_nearest :
  forall (c : cluster point) (mpas : list (mpa_row geometry)) (r : suspect),
    In r (scan_mpas distance c mpas) ->
    exists d_nearest : Q,
      nearest_qualifying (known_distances distance c mpas) = Some d_nearest /\
      d_nearest < 0.05 /\
      risk_score r <= 1 - 20 * d_nearest /\
      risk_score r <= Qmax 0 (1 - 20 * d_nearest).
Proof.
  intros c mpas r Hr.
  destruct (scan_mpas_first_qualifying point geometry distance c mpas r Hr)
    as (pre & m & post & d & Hsplit & _ & Hd & Hlt & _ & _ & _ & Hscore).
  assert (Hin : In d (known_distances distance c mpas)).
  { unfold known_distances. apply in_flat_map. exists m. split.
    - rewrite Hsplit. apply in_or_app. right. now left.
    - rewrite Hd. now left. }
  pose proof (nearest_qualifying_spec (known_distances distance c mpas)) as Hn.
  destruct (nearest_qualifying (known_distances distance c mpas)) as [e|].
  - destruct Hn as (He & _ & Hle). specialize (Hle d Hin).
    exists e. split; [reflexivity|]. split; [exact He|].
    assert (Hs : risk_score r <= 1 - 20 * e).
    { rewrite Hscore.
      eapply Qle_trans; [apply py_min_le_right|]. lra. }
    split; [exact Hs|].
    eapply Qle_trans; [exact Hs | apply Q.le_max_r].
  - specialize (Hn d Hin). lra.
Qed.

End ProximityMoreFacts.

Section ProximityMoreExampleFacts.
Import Proximity ProximityExamples.
Local Open Scope Q_scope.

Lemma risk_score_at_most_nearest_witness :
  exists (r : suspect) (d_nearest : Q),
    scan_mpas ex_distance ex_cluster ex_mpas = [r] /\
    nearest_qualifying (known_distances ex_distance ex_cluster ex_mpas)
    = Some d_nearest /\
    risk_score r <= 1 - 20 * d_nearest.
Proof.
  destruct (risk_score_at_most_nearest unit Q ex_distance ex_cluster ex_mpas
              _ (or_introl eq_refl))
    as (d & Hd & _ & Hs & _).
  eexists _, d. split; [reflexivity|]. split; [exact Hd | exact Hs].
Defined.

End ProximityMoreExampleFacts.

Section AnomalyMoreFacts.
Import Floats Anomaly.
Local Open Scope R_scope.

Lemma rsum_shift (xs : list R) (c : R) :
  rsum (map (fun x => x - c) xs) = rsum xs - INR (length xs) * c.
Proof.
  induction xs as [|a xs IH]; [cbn; lra|].
  change (rsum (map (fun x => x - c) (a :: xs)))
    with ((a - c) + rsum (map (fun x => x - c) xs)).
  change (rsum (a :: xs)) with (a + rsum xs).
  rewrite IH. change (length (a :: xs)) with (S (length xs)).
  rewrite S_INR. ring.
Qed.




(** The deviations from the mean of a group add up to zero. *)
Lemma deviations_sum_zero (xs : list R) :
  rsum (map (fun x => x - mean xs) xs) = 0.
Proof.
  rewrite rsum_shift. destruct xs as [|a xs']; [cbn; lra|].
  set (xs := a :: xs').
  assert (Hlen : 0 < INR (length xs)) by (apply lt_0_INR; simpl; lia).
  unfold mean. field. lra.
Qed.


Lemma group_members (m : nat) (series : list sample) (s : sample) :
  In s (filter (fun s => (month s =? m)%nat) series) -> month s = m.
Proof.
  intros H. apply filter_In in H. destruct H as [_ H].
  now apply Nat.eqb_eq.
Qed.

(** X18.  Within every calendar month the anomalies of the time steps of
    that month add up to zero (and so does their mean), also for a month
    with no time step. *)
Theorem monthly_anomalies_sum_to_zero :
  forall (series : list sample) (m : nat),
    rsum (map (fun s => value s - sst_climatology series (month s))
              (filter (fun s => (month s =? m)%nat) series)) = 0.
Proof.
  intros series m.
  rewrite (map_ext_in _ (fun s => value s - sst_climatology series m)).
  - rewrite <- (map_map value (fun x => x - sst_climatology series m)).
    apply deviations_sum_zero.
  - intros s Hs. now rewrite (group_members m series s Hs).
Qed.



End AnomalyMoreFacts.

Section AnomalyExampleFacts.
Import Floats Anomaly.
Local Open Scope R_scope.




End AnomalyExampleFacts.

Section CoverageMoreFacts.
Import Coverage.
Local Open Scope Q_scope.

Lemma fold_left_Qplus_acc (xs : list Q) (acc : Q) :
  fold_left Qplus xs acc == acc + fold_left Qplus xs 0.
Proof.
  revert acc. induction xs as [|x xs IH]; intros acc; cbn [fold_left].
  - lra.
  - rewrite (IH (acc + x)), (IH (0 + x)). lra.
Qed.

Lemma series_sum_app (xs ys : list Q) :
  series_sum (xs ++ ys) == series_sum xs + series_sum ys.
Proof.
  unfold series_sum. rewrite fold_left_app.
  apply fold_left_Qplus_acc.
Qed.

Lemma series_sum_nonneg (xs : list Q) :
  Forall (fun x => 0 <= x) xs -> 0 <= series_sum xs.
Proof.
  unfold series_sum. induction 1 as [|x xs Hx _ IH]; cbn [fold_left].
  - lra.
  - rewrite fold_left_Qplus_acc. lra.
Qed.

Lemma km2_of_m2 (s : Q) : s / 1e6 == s * (1 # 1000000).
Proof. unfold Qdiv. apply Qmult_comp; reflexivity. Qed.

Lemma pct_of_km2 (s : Q) : s / 2.5e6 * 100 == s * (1 # 25000).
Proof.
  unfold Qdiv. rewrite <- Qmult_assoc. apply Qmult_comp; reflexivity.
Qed.

(** X21.  The coverage statistics add up over the MPA records: two sets
    of records together give the sum of their areas, of their coverage
    percentages and of their counts, so a record listed twice (or two
    overlapping MPAs) counts twice.  The percentage is not clamped: it
    exceeds 100 exactly when the summed area exceeds 2.5e6 km². *)
Theorem coverage_adds_over_records :
  forall a b : list Q,
    exists sa sb sab : mpa_stats,
      calculate_mpa_coverage (Some a) = Some sa /\
      calculate_mpa_coverage (Some b) = Some sb /\
      calculate_mpa_coverage (Some (a ++ b)) = Some sab /\
      total_mpa_area_km2 sab == total_mpa_area_km2 sa + total_mpa_area_km2 sb /\
      coverage_percentage sab == coverage_percentage sa + coverage_percentage sb /\
      number_of_mpas sab = (number_of_mpas sa + number_of_mpas sb)%nat /\
      (100 < coverage_percentage sab <-> 2.5e6 < total_mpa_area_km2 sab).
Proof.
  intros a b. do 3 eexists.
  split; [reflexivity|]. split; [reflexivity|]. split; [reflexivity|].
  cbn [total_mpa_area_km2 coverage_percentage number_of_mpas].
  unfold med_total_area.
  split; [|split; [|split]].
  - rewrite series_sum_app, !km2_of_m2. lra.
  - rewrite series_sum_app, !pct_of_km2, !km2_of_m2. lra.
  - apply length_app.
  - rewrite pct_of_km2.
    assert (E : 2.5e6 == 2500000) by reflexivity.
    rewrite E. split; intros H; lra.
Qed.

(** X22.  With areas that are not negative the coverage percentage is not
    negative, and adding records never lowers it. *)
Theorem coverage_grows_with_records :
  forall a b : list Q,
    Forall (fun x => 0 <= x) a ->
    Forall (fun x => 0 <= x) b ->
    exists sa sab : mpa_stats,
      calculate_mpa_coverage (Some a) = Some sa /\
      calculate_mpa_coverage (Some (a ++ b)) = Some sab /\
      0 <= coverage_percentage sa /\
      coverage_percentage sa <= coverage_percentage sab.
Proof.
  intros a b Ha Hb. do 2 eexists.
  split; [reflexivity|]. split; [reflexivity|].
  cbn [coverage_percentage]. unfold med_total_area.
  pose proof (series_sum_nonneg a Ha) as Hsa.
  pose proof (series_sum_nonneg b Hb) as Hsb.
  pose proof (series_sum_app a b) as Hab.
  rewrite !pct_of_km2, !km2_of_m2, Hab. split; lra.
Qed.

Lemma coverage_grows_with_records_witness :
  exists sa sab : mpa_stats,
    calculate_mpa_coverage (Some [100000e6]) = Some sa /\
    calculate_mpa_coverage (Some ([100000e6] ++ [25000e6])) = Some sab /\
    0 <= coverage_percentage sa /\
    coverage_percentage sa <= coverage_percentage sab.
Proof.
  apply (coverage_grows_with_records [100000e6] [25000e6]).
  - repeat constructor; discriminate.
  - repeat constructor; discriminate.
Defined.

End CoverageMoreFacts.

Section CurrentMoreFacts.
Import Currents.
Local Open Scope R_scope.

Lemma arctan2_scale (k y x : R) :
  0 < k -> arctan2 (k * y) (k * x) = arctan2 y x.
Proof.
  intros Hk. unfold arctan2.
  assert (Hq : x <> 0 -> k * y / (k * x) = y / x)
    by (intros Hx; field; split; lra).
  destruct (Rlt_dec 0 (k * x)) as [H1 | H1];
    destruct (Rlt_dec 0 x) as [H2 | H2]; try (exfalso; nra).
  - rewrite Hq by lra. reflexivity.
  - destruct (Rlt_dec (k * x) 0) as [H3 | H3];
      destruct (Rlt_dec x 0) as [H4 | H4]; try (exfalso; nra).
    + rewrite Hq by lra.
      destruct (Rle_dec 0 (k * y)) as [H5 | H5];
        destruct (Rle_dec 0 y) as [H6 | H6]; try (exfalso; nra);
        reflexivity.
    + destruct (Rlt_dec 0 (k * y)) as [H5 | H5];
        destruct (Rlt_dec 0 y) as [H6 | H6]; try (exfalso; nra);
        try reflexivity.
      destruct (Rlt_dec (k * y) 0) as [H7 | H7];
        destruct (Rlt_dec y 0) as [H8 | H8]; try (exfalso; nra);
        reflexivity.
Qed.

(** X23.  A current [k] times as strong ([k] positive) has [k] times the
    speed and the same direction: the direction depends on the ratio of
    the components only. *)
Theorem current_scaling :
  forall k u v : R,
    0 < k ->
    speed_at (k * u) (k * v) = k * speed_at u v /\
    direction_at (k * u) (k * v) = direction_at u v.
Proof.
  intros k u v Hk. split.
  - unfold speed_at.
    replace ((k * u) ^ 2 + (k * v) ^ 2) with (k ^ 2 * (u ^ 2 + v ^ 2)) by ring.
    rewrite sqrt_mult_alt by apply pow2_ge_0.
    rewrite sqrt_pow2 by lra. reflexivity.
  - unfold direction_at. now rewrite arctan2_scale.
Qed.

Lemma current_scaling_witness :
  speed_at (2 * 3) (2 * 4) = 2 * speed_at 3 4 /\
  direction_at (2 * 3) (2 * 4) = direction_at 3 4.
Proof.
  apply (current_scaling 2 3 4). lra.
Defined.


End CurrentMoreFacts.

Section LivelihoodFacts.
Import Coverage Livelihoods.
Local Open Scope Q_scope.

Lemma scenario_rows_unbound (percentages : list Q) :
  scenario_rows None percentages = None <-> percentages <> [].
Proof.
  destruct percentages; cbn; split; congruence.
Qed.

Lemma scenario_rows_bound (jobs : Q) (percentages : list Q) :
  scenario_rows (Some jobs) percentages
  = Some (map (scenario_row jobs) percentages).
Proof.
  induction percentages as [|p rest IH]; cbn [scenario_rows map].
  - reflexivity.
  - now rewrite IH.
Qed.

(** X25.  How [assess_fisher_livelihoods_impact] ends: it returns without
    storing anything exactly when the fishing table or the FAO statistics
    are missing; with both present it raises an [UnboundLocalError] exactly
    when the fishing table has no [fishing_hours] column; otherwise it
    stores four rows, for 10, 20, 30 and 50 percent. *)
Theorem livelihoods_outcome :
  forall (fishing : option fishing_table) (fao_stats : bool),
    (assess_fisher_livelihoods_impact fishing fao_stats = Skipped
     <-> fishing = None \/ fao_stats = false) /\
    (assess_fisher_livelihoods_impact fishing fao_stats = UnboundLocalError
     <-> exists t, fishing = Some t /\ fao_stats = true /\
                   fishing_hours t = None) /\
    ((exists rows,
        assess_fisher_livelihoods_impact fishing fao_stats = Stored rows)
     <-> exists t hours, fishing = Some t /\ fao_stats = true /\
                         fishing_hours t = Some hours) /\
    (forall rows,
       assess_fisher_livelihoods_impact fishing fao_stats = Stored rows ->
       map mpa_expansion_pct rows = [10; 20; 30; 50]).
Proof.
  intros [[[hours|]]|] [|]; cbn.
  all: repeat split.
  all: try discriminate.
  all: try (intros [H | H]; discriminate).
  all: try (now left).
  all: try (now right).
  all: try (intros (t & Ht & Hf & Hh); try discriminate;
            injection Ht as <-; discriminate).
  all: try (intros (t & hs & Ht & Hf & Hh); try discriminate;
            injection Ht as <-; discriminate).
  all: try (intros (rows & Hrows); discriminate).
  all: try (intros rows [= <-]; reflexivity).
  all: try (eexists; reflexivity).
  all: try (eexists; eexists; repeat split; reflexivity).
  all: try (eexists; repeat split; reflexivity).
Qed.

Lemma scenario_row_relations (jobs pct : Q) :
  let r := scenario_row jobs pct in
  immediate_job_displacement r == jobs * pct * (6 # 1000) /\
  longterm_job_creation r == 1.3 * immediate_job_displacement r /\
  net_jobs_after_recovery r == jobs + 0.3 * immediate_job_displacement r /\
  longterm_economic_benefit_usd r == 0.3 * immediate_economic_impact_usd r /\
  breakeven_year r == 4.9.
Proof.
  cbn. repeat split; try reflexivity; field.
Qed.

(** X26.  The rows stored for a table with a [fishing_hours] column, the
    jobs being the summed hours over 2000: the displacement is 0.6 percent
    of the jobs per percent of expansion, the jobs created are 1.3 times
    the displacement, so the net jobs after recovery are the jobs plus 0.3
    times the displacement, above today's jobs whenever there are any; the
    long-term economic benefit is 0.3 times the immediate loss, and the
    break-even year is 4.9 in every scenario. *)
Theorem livelihood_rows_relations :
  forall hours : list Q,
    exists rows,
      assess_fisher_livelihoods_impact
        (Some {| fishing_hours := Some hours |}) true = Stored rows /\
      Forall
        (fun r =>
           immediate_job_displacement r
           == series_sum hours / 2000 * mpa_expansion_pct r * (6 # 1000) /\
           longterm_job_creation r == 1.3 * immediate_job_displacement r /\
           net_jobs_after_recovery r
           == series_sum hours / 2000 + 0.3 * immediate_job_displacement r /\
           longterm_economic_benefit_usd r
           == 0.3 * immediate_economic_impact_usd r /\
           breakeven_year r == 4.9 /\
           (0 < series_sum hours ->
            series_sum hours / 2000 < net_jobs_after_recovery r))
        rows.
Proof.
  intros hours.
  exists (map (scenario_row (series_sum hours / 2000)) [10; 20; 30; 50]).
  split.
  - unfold assess_fisher_livelihoods_impact.
    cbn [negb fishing_hours option_map].
    now rewrite scenario_rows_bound.
  - set (jobs := series_sum hours / 2000).
    assert (Hjobs : 0 < series_sum hours -> 0 < jobs).
    { intros H. unfold jobs. apply Qlt_shift_div_l; [reflexivity | lra]. }
    assert (Hrow : forall pct, 0 < pct ->
              let r := scenario_row jobs pct in
              (immediate_job_displacement r
               == jobs * mpa_expansion_pct r * (6 # 1000) /\
               longterm_job_creation r == 1.3 * immediate_job_displacement r /\
               net_jobs_after_recovery r
               == jobs + 0.3 * immediate_job_displacement r /\
               longterm_economic_benefit_usd r
               == 0.3 * immediate_economic_impact_usd r /\
               breakeven_year r == 4.9 /\
               (0 < series_sum hours -> jobs < net_jobs_after_recovery r))).
    { intros pct Hpct r.
      destruct (scenario_row_relations jobs pct)
        as (Hd & Hc & Hn & He & Hb).
      fold r in Hd, Hc, Hn, He, Hb.
      repeat split; try assumption.
      intros Hpos. specialize (Hjobs Hpos).
      rewrite Hn, Hd.
      assert (Hp : 0 < jobs * pct) by now apply Qmult_lt_0_compat.
      lra. }
    repeat constructor; apply Hrow; reflexivity.
Qed.

End LivelihoodFacts.

Section ConnectivityFacts.
Import Connectivity.
Local Open Scope Z_scope.

Lemma flat_map_singletons {A B : Type} (f : A -> list B) (g : A -> B)
    (l : list A) :
  (forall x, In x l -> f x = [g x]) -> flat_map f l = map g l.
Proof.
  induction l as [|a l IH]; intros H; cbn [flat_map map]; [reflexivity|].
  rewrite (H a) by now left.
  rewrite IH by (intros x Hx; apply H; now right). reflexivity.
Qed.

Lemma batch_windows_spec (len_time : nat) :
  (2 <= len_time)%nat ->
  batch_windows len_time
  = Some (map (fun k : nat =>
                 (Z.of_nat k * Z.min 10 (Z.of_nat len_time),
                  (Z.of_nat k + 1) * Z.min 10 (Z.of_nat len_time)))
              (seq 0 (Z.to_nat
                        (Z.min 3 (Z.of_nat len_time
                                  / Z.min 10 (Z.of_nat len_time)))))).
Proof.
  intros HT. unfold batch_windows.
  set (n := Z.of_nat len_time). set (tw := Z.min 10 n).
  assert (Hn : 2 <= n) by (unfold n; lia).
  assert (Htw : 2 <= tw <= n) by (unfold tw; lia).
  destruct (Z.eqb_spec tw 0) as [E | _]; [lia|].
  assert (Hq : 1 <= n / tw).
  { apply Z.div_le_lower_bound; lia. }
  rewrite (Z.max_r 1 (n / tw)) by exact Hq.
  f_equal. apply flat_map_singletons. intros k Hk.
  apply in_seq in Hk.
  assert (Hk' : Z.of_nat k + 1 <= n / tw) by lia.
  pose proof (Z.mul_div_le n tw ltac:(lia)) as Hmul.
  assert (Hend : Z.of_nat k * tw + tw <= n) by nia.
  rewrite (Z.min_l _ n) by exact Hend.
  destruct (Z.ltb_spec (Z.of_nat k * tw + tw - Z.of_nat k * tw) 2) as [H | _];
    [lia|].
  do 2 f_equal. ring.
Qed.

(** X27.  The time windows of the connectivity computation.  An empty time
    axis makes the method raise [ZeroDivisionError]; a single time step
    gives no window, so nothing is stored; from two time steps on there
    are one to three consecutive windows, each of [min(10, T)] steps and
    starting at 0, so no time step from the 30th on is ever used, and
    neither the clamp of [t_end] nor the length test change anything. *)
Theorem connectivity_windows :
  forall len_time : nat,
    (batch_windows len_time = None <-> len_time = 0%nat) /\
    (len_time = 1%nat -> batch_windows len_time = Some []) /\
    ((2 <= len_time)%nat ->
     exists ws,
       batch_windows len_time = Some ws /\
       (1 <= length ws <= 3)%nat /\
       forall i w, nth_error ws i = Some w ->
         fst w = Z.of_nat i * Z.min 10 (Z.of_nat len_time) /\
         snd w = fst w + Z.min 10 (Z.of_nat len_time) /\
         snd w <= Z.min 30 (Z.of_nat len_time)).
Proof.
  intros T. split; [|split].
  - split.
    + intros H. destruct T as [|T]; [reflexivity|]. exfalso.
      unfold batch_windows in H.
      destruct (Z.eqb_spec (Z.min 10 (Z.of_nat (S T))) 0) as [E | _];
        [lia | discriminate].
    + intros ->. reflexivity.
  - intros ->. reflexivity.
  - intros HT. rewrite (batch_windows_spec T HT).
    set (n := Z.of_nat T). set (tw := Z.min 10 n).
    assert (Hn : 2 <= n) by (unfold n; lia).
    assert (Htw : 2 <= tw <= n) by (unfold tw; lia).
    assert (Hq : 1 <= n / tw) by (apply Z.div_le_lower_bound; lia).
    pose proof (Z.mul_div_le n tw ltac:(lia)) as Hmul.
    eexists. split; [reflexivity|]. split.
    + rewrite length_map, length_seq. lia.
    + intros i w Hi.
      assert (Hlt : (i < Z.to_nat (Z.min 3 (n / tw)))%nat).
      { destruct (Nat.lt_ge_cases i (Z.to_nat (Z.min 3 (n / tw))))
          as [H | H]; [exact H|]. exfalso.
        rewrite (proj2 (nth_error_None _ _)) in Hi; [discriminate|].
        rewrite length_map, length_seq. exact H. }
      rewrite nth_error_map, nth_error_seq in Hi.
      destruct (Nat.ltb_spec i (Z.to_nat (Z.min 3 (n / tw)))) as [_ | F];
        [|lia].
      cbn in Hi. injection Hi as <-. cbn [fst snd].
      split; [reflexivity|]. split; [ring|].
      assert (Hi3 : Z.of_nat i + 1 <= 3) by lia.
      assert (Hiq : Z.of_nat i + 1 <= n / tw) by lia.
      apply Z.min_glb; [unfold tw; nia | nia].
Qed.

End ConnectivityFacts.

Section HabitatFacts.
Import Floats RiskClass Habitat.
Local Open Scope Q_scope.

Lemma Qeq_bool_nonzero (y : Q) : ~ y == 0 -> Qeq_bool y 0 = false.
Proof.
  intros H. destruct (Qeq_bool y 0) eqn:E; [|reflexivity].
  apply Qeq_bool_eq in E. contradiction.
Qed.

Lemma fdiv_fin (x y : Q) : ~ y == 0 -> fdiv (Fin x) (Fin y) = Fin (x / y).
Proof. intros H. unfold fdiv. now rewrite Qeq_bool_nonzero. Qed.

Lemma over_18_5 (x : Q) : x / 18.5 == x * (10 # 185).
Proof. unfold Qdiv. apply Qmult_comp; reflexivity. Qed.

Lemma over_3 (x : Q) : x / 3 == x * (1 # 3).
Proof. unfold Qdiv. apply Qmult_comp; reflexivity. Qed.

(** The temperature score: 0 outside [13, 24] degrees, and between
    13/18.5 and 1 inside. *)
Lemma temp_score_fin (tm : Q) :
  exists a, temp_score (Fin tm) = Fin a /\
            ((13 <= tm <= 24 /\ (130 # 185) <= a <= 1) \/
             (~ 13 <= tm <= 24 /\ a == 0)).
Proof.
  unfold temp_score. cbn [fle fsub fneg fadd].
  rewrite fdiv_fin by discriminate. cbn [fabs fneg fadd].
  destruct (Qle_bool 13 tm) eqn:E1; [destruct (Qle_bool tm 24) eqn:E2|];
    cbn [andb].
  - apply Qle_bool_iff in E1. apply Qle_bool_iff in E2.
    eexists. split; [reflexivity|]. left. split; [split; assumption|].
    set (d := (tm + - (18.5)) / 18.5).
    pose proof (Qabs_nonneg d) as Hnn.
    assert (Hle : Qabs d <= (55 # 185)).
    { apply Qabs_Qle_condition. unfold d. rewrite over_18_5. split; lra. }
    split; lra.
  - apply Qle_bool_false in E2.
    eexists. split; [reflexivity|]. right. split; [lra | reflexivity].
  - apply Qle_bool_false in E1.
    eexists. split; [reflexivity|]. right. split; [lra | reflexivity].
Qed.

Lemma chl_score_fin (chl chl95 : Q) :
  0 <= chl -> 0 < chl95 ->
  exists b, chl_score (Fin chl) (Fin chl95) = Fin b /\ 0 <= b <= 1.
Proof.
  intros Hc H95. unfold chl_score.
  rewrite fdiv_fin by lra. cbn [flt].
  destruct (Qltb 1 (chl / chl95)) eqn:E.
  - exists 1. split; [reflexivity | lra].
  - apply Qltb_false in E. eexists. split; [reflexivity|].
    split; [|exact E].
    apply Qle_shift_div_l; [exact H95 | lra].
Qed.

Lemma temp_stability_fin (tstd tm : Q) :
  0 <= tstd -> 0 < tm ->
  exists c, temp_stability (Fin tstd) (Fin tm) = Fin c /\ 0 < c <= 1.
Proof.
  intros Hs Hm. unfold temp_stability.
  rewrite fdiv_fin by lra. cbn [fadd].
  assert (Hr : 0 <= tstd / tm) by (apply Qle_shift_div_l; [exact Hm | lra]).
  rewrite fdiv_fin by lra.
  eexists. split; [reflexivity|]. split.
  - apply Qlt_shift_div_l; lra.
  - apply Qle_shift_div_r; lra.
Qed.

(** X28.  The habitat quality of a cell with a positive mean temperature,
    a standard deviation and a chlorophyll mean that are not negative and
    a positive 95th percentile of chlorophyll is a number in (0, 1]; and a
    cell whose mean temperature lies outside [13, 24] degrees is never
    counted as high-quality habitat, its index being at most 2/3. *)
Theorem habitat_quality_range :
  forall tm tstd chl chl95 : Q,
    0 < tm -> 0 <= tstd -> 0 <= chl -> 0 < chl95 ->
    exists q,
      habitat_quality (Fin tm) (Fin tstd) (Fin chl) (Fin chl95) = Fin q /\
      0 < q <= 1 /\
      (~ 13 <= tm <= 24 -> q <= 2 # 3) /\
      (high_quality (Fin q) = true -> 13 <= tm <= 24).
Proof.
  intros tm tstd chl chl95 Htm Hstd Hchl H95.
  destruct (temp_score_fin tm) as (a & Ha & Hcase).
  destruct (chl_score_fin chl chl95 Hchl H95) as (b & Hb & Hb01).
  destruct (temp_stability_fin tstd tm Hstd Htm) as (c & Hc & Hc01).
  unfold habitat_quality. rewrite Ha, Hb, Hc. cbn [fadd].
  rewrite fdiv_fin by discriminate.
  exists ((a + b + c) / 3). split; [reflexivity|].
  pose proof (over_3 (a + b + c)) as Eq.
  remember ((a + b + c) / 3) as q eqn:Hq. clear Hq.
  assert (Ha01 : 0 <= a <= 1) by (destruct Hcase as [[_ H] | [_ H]]; lra).
  assert (Hout : ~ 13 <= tm <= 24 -> q <= 2 # 3).
  { intros Hn. destruct Hcase as [[H _] | [_ H]]; [contradiction | lra]. }
  split; [split; lra|]. split; [exact Hout|].
  intros Hhigh. unfold high_quality in Hhigh. cbn [flt] in Hhigh.
  apply Qltb_true in Hhigh.
  destruct Hcase as [[H _] | [Hn _]]; [exact H|].
  specialize (Hout Hn). lra.
Qed.

Lemma habitat_quality_range_witness :
  exists q,
    habitat_quality (Fin 12) (Fin 2) (Fin 0.4) (Fin 0.5) = Fin q /\
    0 < q <= 1 /\ q <= 2 # 3.
Proof.
  destruct (habitat_quality_range 12 2 0.4 0.5)
    as (q & Hq & Hrange & Hout & _);
    [reflexivity | discriminate | discriminate | reflexivity |].
  exists q. split; [exact Hq|]. split; [exact Hrange|].
  apply Hout. intros [H _]. revert H. apply Qlt_not_le. reflexivity.
Defined.

End HabitatFacts.

Section RiskIndexFacts.
Import Floats Risk.
Local Open Scope Q_scope.

(** X29.  [calculate_overfishing_risk_index] on finite fields over one
    grid of [n > 0] cells, at least one of the three inputs present: the
    stored index has [n] cells, each the weighted average of the
    normalized factors present, a number in [0, 1]. *)
Theorem overfishing_risk_index_weighted_average :
  forall (sst trend : option (list Q)) (zones : option (list bool)) (n : nat),
    derived_factors sst trend zones <> [] -> (0 < n)%nat ->
    (forall f, sst = Some f -> length f = n) ->
    (forall f, trend = Some f -> length f = n) ->
    (forall z, zones = Some z -> length z = n) ->
    exists g,
      calculate_overfishing_risk_index (finite_processed sst trend zones)
      = Some (Grid g) /\
      length g = n /\
      forall i, (i < n)%nat ->
        exists q,
          nth_error g i = Some (Fin q) /\
          q == spec_risk_index weights_get
                 (derived_factors sst trend zones) i /\
          0 <= q <= 1.
Proof.
  intros sst trend zones n Hne Hn Hs Ht Hz.
  destruct (calculate_overfishing_risk_index_spec sst trend zones n
              Hne Hn Hs Ht Hz) as (g & Hg & [Hlen Hcells] & Hrange).
  exists g. split; [exact Hg|]. split; [exact Hlen|].
  intros i Hi. destruct (Hcells i Hi) as (q & Hq & Heq).
  exists q. split; [exact Hq|]. split; [exact Heq|].
  rewrite Heq. now apply Hrange.
Qed.

Lemma overfishing_risk_index_weighted_average_witness :
  exists g,
    calculate_overfishing_risk_index
      (finite_processed (Some [1; - (2)]) None (Some [true; false]))
    = Some (Grid g) /\
    length g = 2%nat /\
    forall i, (i < 2)%nat ->
      exists q, nth_error g i = Some (Fin q) /\
        q == spec_risk_index weights_get
               (derived_factors (Some [1; - (2)]) None
                                (Some [true; false])) i /\
        0 <= q <= 1.
Proof.
  apply (overfishing_risk_index_weighted_average
           (Some [1; - (2)]) None (Some [true; false]) 2).
  - discriminate.
  - lia.
  - intros f [= <-]. reflexivity.
  - intros f [=].
  - intros z [= <-]. reflexivity.
Defined.

Lemma multifactor_weights_pos (env hab conn : option (list Q))
    (kf : string * list Q) :
  In kf (multifactor_factors env hab conn) ->
  0 < multifactor_weight (fst kf).
Proof.
  unfold multifactor_factors. intros Hin.
  repeat (apply in_app_or in Hin; destruct Hin as [Hin | Hin]).
  - destruct env; simpl in Hin; [|contradiction].
    destruct Hin as [<- | []]. reflexivity.
  - destruct hab; simpl in Hin; [|contradiction].
    destruct Hin as [<- | []]. reflexivity.
  - destruct conn; simpl in Hin; [|contradiction].
    destruct Hin as [<- | []]. reflexivity.
Qed.

(** X30.  [calculate_multifactor_risk_index] on non-empty finite fields
    over one grid: every cell of the stored index is a number between 0
    and the share that the weights of the factor fields present have in
    all the weights declared, those of fishing pressure and of the
    protection gap included; that share is at most 1. *)
Theorem multifactor_index_capped_by_share :
  forall (env : option (list Q)) (fishing : bool)
         (hab conn : option (list Q)) (mpa : bool) (n : nat),
    multifactor_factors env hab conn <> [] -> (0 < n)%nat ->
    (forall kf, In kf (multifactor_factors env hab conn) ->
       length (snd kf) = n) ->
    let present :=
      qsum (map (fun kf => multifactor_weight (fst kf))
                (multifactor_factors env hab conn)) in
    let share := present / (present + fieldless_weight fishing mpa) in
    0 < share <= 1 /\
    exists g,
      calculate_multifactor_risk_index
        (finite_multifactor env fishing hab conn mpa) = Some (Grid g) /\
      length g = n /\
      forall i, (i < n)%nat ->
        exists q, nth_error g i = Some (Fin q) /\ 0 <= q <= share.
Proof.
  intros env fishing hab conn mpa n Hne Hn Hlen present share.
  assert (Hpos : 0 < present).
  { apply weights_sum_pos; [|exact Hne].
    intros kf Hin. now apply (multifactor_weights_pos env hab conn). }
  assert (Hfl : 0 <= fieldless_weight fishing mpa).
  { unfold fieldless_weight. destruct fishing, mpa; discriminate. }
  assert (Hshare : 0 < share <= 1).
  { unfold share. split.
    - apply Qlt_shift_div_l; lra.
    - apply Qle_shift_div_r; lra. }
  split; [exact Hshare|].
  destruct (calculate_multifactor_risk_index_spec env fishing hab conn mpa n
              Hne Hn Hlen) as (g & Hg & [Hglen Hcells] & _).
  exists g. split; [exact Hg|]. split; [exact Hglen|].
  intros i Hi. destruct (Hcells i Hi) as (q & Hq & Heq).
  exists q. split; [exact Hq|].
  fold present in Heq. fold share in Heq.
  assert (Hs : 0 <= spec_risk_index multifactor_weight
                      (multifactor_factors env hab conn) i <= 1).
  { apply spec_risk_index_range.
    - intros kf Hin. now apply (multifactor_weights_pos env hab conn).
    - exact Hne.
    - intros kf Hin. rewrite (Hlen kf Hin). exact Hi. }
  rewrite Heq. split; nra.
Qed.

Lemma multifactor_index_capped_by_share_witness :
  exists g,
    calculate_multifactor_risk_index
      (finite_multifactor (Some [0; 1]) true None None false)
    = Some (Grid g) /\
    forall i, (i < 2)%nat ->
      exists q, nth_error g i = Some (Fin q) /\ 0 <= q <= 2 # 5.
Proof.
  destruct (multifactor_index_capped_by_share
              (Some [0; 1]) true None None false 2)
    as (_ & g & Hg & _ & Hcells).
  - discriminate.
  - lia.
  - intros kf [<- | []]. reflexivity.
  - exists g. split; [exact Hg|].
    intros i Hi. destruct (Hcells i Hi) as (q & Hq & H0 & H1).
    exists q. split; [exact Hq|]. split; [exact H0|].
    eapply Qle_trans; [exact H1|]. discriminate.
Defined.

End RiskIndexFacts.
